(** * all-git: discovery, status collection and action recommendation

    A shallow embedding of [all-git.js] and the properties its
    specification states.  The embedding follows the current revision of
    the file, the one with the columns for the default branch.

    Conventions of the embedding:
    - a JavaScript string is a [string]; every literal the program
      compares against is ASCII, and one [ascii] stands for one code unit
      (only the glyphs of the table header and of the fetch column are
      written out in UTF-8);
    - a promise that has settled is a [Promise]: [Resolved v] or
      [Rejected e]; [await] on a rejected promise throws [e];
    - the external world is an oracle: the [git] executable is the
      parameter [execFile], the directory tree is a [Dirent], the terminal
      styling functions are a [Terminal];
    - the closure variable [commonRepositoryPrefix] and the two console
      streams are threaded explicitly through a [World] state.  The tasks
      that [Promise.all] runs concurrently are run in list order; the
      state they share is the prefix accumulator, whose final value does
      not depend on that order ([reducePrefix_Permutation]). *)

From Stdlib Require Import ZArith Lia Ascii Permutation.
From stdpp Require Import gmap strings list fin_maps pretty.

Local Open Scope Z_scope.
Local Open Scope nat_scope.

(** ** JavaScript strings *)

Module JsString.

(** [s.split(sep)] for a separator of one code unit.  The result is
    never empty: [("").split(sep)] is the array of the empty string. *)
Fixpoint split (sep : ascii) (s : string) : list string :=
  match s with
  | EmptyString => [EmptyString]
  | String c s' =>
      if Ascii.eqb c sep then EmptyString :: split sep s'
      else match split sep s' with
           | [] => [String c EmptyString]
           | w :: ws => String c w :: ws
           end
  end.

(** [s.slice(start, end)] for non-negative indices; both are clamped to
    the length, as [String.substring] does. *)
Definition slice (s : string) (start end_ : nat) : string :=
  String.substring start (end_ - start) s.

(** [s.slice(start)] *)
Definition sliceFrom (s : string) (start : nat) : string :=
  String.substring start (String.length s - start) s.

(** The WhiteSpace and LineTerminator code units below 256. *)
Definition isWhiteSpace (c : ascii) : bool :=
  match nat_of_ascii c with
  | 9 | 10 | 11 | 12 | 13 | 32 | 160 => true
  | _ => false
  end.

Fixpoint trimStart (s : string) : string :=
  match s with
  | EmptyString => EmptyString
  | String c s' => if isWhiteSpace c then trimStart s' else s
  end.

Fixpoint trimEnd (s : string) : string :=
  match s with
  | EmptyString => EmptyString
  | String c s' =>
      match trimEnd s' with
      | EmptyString =>
          if isWhiteSpace c then EmptyString else String c EmptyString
      | t => String c t
      end
  end.

(** [s.trim()] *)
Definition trim (s : string) : string := trimEnd (trimStart s).

(** A string is truthy when it is not empty. *)
Definition truthy (s : string) : bool :=
  match s with EmptyString => false | _ => true end.

(** [strings.join(sep)] *)
Definition join (sep : string) (l : list string) : string :=
  String.concat sep l.

End JsString.

(** ** Promises and errors *)

(** An [Error] object.  The errors of the promisified [execFile] also
    carry the output captured so far in their [stdout] property. *)
Record Error : Type := mkError { message : string; errStdout : string }.

Inductive Promise (A : Type) : Type :=
| Resolved (value : A)
| Rejected (reason : Error).
Arguments Resolved {A} value.
Arguments Rejected {A} reason.

Module Promise.

Definition map {A B : Type} (f : A -> B) (p : Promise A) : Promise B :=
  match p with
  | Resolved v => Resolved (f v)
  | Rejected e => Rejected e
  end.

(** [Promise.all]: the values in the order of the input, or the first
    rejection. *)
Fixpoint all {A : Type} (ps : list (Promise A)) : Promise (list A) :=
  match ps with
  | [] => Resolved []
  | Resolved v :: ps' => map (cons v) (all ps')
  | Rejected e :: _ => Rejected e
  end.

End Promise.

(** What [execFile] resolves to. *)
Record Output : Type := mkOutput { stdout : string }.

Definition typeError (msg : string) : Error := mkError msg EmptyString.

(** ** [commonPrefix]
<<
function commonPrefix(a, b) {
    let index = 0;
    while (index < a.length && index < b.length) {
        if (a[index] != b[index]) break;
        index++;
    }
    return a.slice(0, index);
}
>>
    The [while] loop is a recursion on fuel; [a.length] iterations always
    suffice, since [index] grows by one and stays below [a.length]. *)

Fixpoint commonPrefix_loop (fuel : nat) (a b : string) (index : nat) : nat :=
  match fuel with
  | O => index
  | S fuel' =>
      if (index <? String.length a) && (index <? String.length b) then
        if bool_decide (String.get index a ≠ String.get index b) then index
        else commonPrefix_loop fuel' a b (S index)
      else index
  end.

Definition commonPrefix (a b : string) : string :=
  let index := commonPrefix_loop (String.length a) a b 0 in
  JsString.slice a 0 index.

(** The running reduction of [status]:
    [commonRepositoryPrefix = commonPrefix(commonRepositoryPrefix ?? repo, repo)],
    starting from [null]. *)
Definition updatePrefix (commonRepositoryPrefix : option string)
    (repo : string) : option string :=
  Some (commonPrefix (default repo commonRepositoryPrefix) repo).

Definition reducePrefix (repos : list string) : option string :=
  fold_left updatePrefix repos None.

(** ** Values of the divergence columns

    A divergence cell holds a number (a commit count) or one of three
    strings: ["!"] (the log query threw), the empty string (no branch
    name) and ["?"] (no default branch). *)

Inductive Marker : Type := Bang | Blank | Question.

Definition markerText (m : Marker) : string :=
  match m with
  | Bang => "!"
  | Blank => EmptyString
  | Question => "?"
  end.

Inductive JsValue : Type :=
| Num (n : Z)
| Str (m : Marker).

Inductive JsNumber : Type :=
| Finite (n : Z)
| NaN.

(** [ToNumber]: the empty string converts to [0], a string that is not a
    numeric literal to [NaN]. *)
Definition ToNumber (v : JsValue) : JsNumber :=
  match v with
  | Num n => Finite n
  | Str Blank => Finite 0
  | Str Bang => NaN
  | Str Question => NaN
  end.

(** [v > 0]: both sides are converted to numbers, and a comparison with
    [NaN] is false. *)
Definition gt0 (v : JsValue) : bool :=
  match ToNumber v with
  | Finite n => (0 <? n)%Z
  | NaN => false
  end.

(** [String(v)], the text a cell shows. *)
Definition cellText (v : JsValue) : string :=
  match v with
  | Num n => pretty n
  | Str m => markerText m
  end.

(** ** Paths

    The POSIX functions of [path], on the paths the program builds: the
    scan root ["."] and the paths joined from it with names read from a
    directory. *)

Module Path.

Definition segments (path : string) : list string :=
  JsString.split "/" path.

(** [basename(path)]: the text after the last separator. *)
Definition basename (path : string) : string :=
  List.last (segments path) EmptyString.

(** [dirname(path)]: the text before the last separator, ["."] when the
    path has none. *)
Definition dirname (path : string) : string :=
  match removelast (segments path) with
  | [] => "."
  | segs => JsString.join "/" segs
  end.

(** [join(path, name)]: normalisation drops a leading ["./"]. *)
Definition join (path name : string) : string :=
  if String.eqb path "." then name else path +:+ "/" +:+ name.

End Path.

(** ** The directory tree

    [readdir(path, { withFileTypes: true })] lists the entries of a
    directory; an [Unreadable] directory is one whose listing is
    rejected. *)

#[warnings="-register-all"]
Inductive Dirent : Type :=
| File (name : string)
| Directory (name : string) (entries : list Dirent)
| Unreadable (name : string) (reason : Error).

Definition name (dirEnt : Dirent) : string :=
  match dirEnt with
  | File n => n
  | Directory n _ => n
  | Unreadable n _ => n
  end.

Definition isDirectory (dirEnt : Dirent) : bool :=
  match dirEnt with
  | File _ => false
  | Directory _ _ => true
  | Unreadable _ _ => true
  end.

Definition readdir (node : Dirent) : Promise (list Dirent) :=
  match node with
  | File _ => Rejected (typeError "ENOTDIR: not a directory, scandir")
  | Directory _ entries => Resolved entries
  | Unreadable _ e => Rejected e
  end.

(** ** [findGit]
<<
async function findGit(path) {
    if (basename(path) == ".git") return [dirname(path)];
    let directories = await readdir(join(path), { withFileTypes: true });
    return (
        await Promise.all(
            directories
                .filter((dirEnt) => dirEnt.isDirectory())
                .map((dirEnt) => findGit(join(path, dirEnt.name)))
        )
    ).flat();
}
>>
    [node] is the directory that [path] names.  The recursion is
    structural on the tree; the inner [each] is the [filter] followed by
    the [map] of the source ([findGit_eq] below states it with [filter]
    and [map]). *)

Fixpoint findGit (path : string) (node : Dirent) {struct node}
  : Promise (list string) :=
  if String.eqb (Path.basename path) ".git" then Resolved [Path.dirname path]
  else
    match node with
    | File _ => Rejected (typeError "ENOTDIR: not a directory, scandir")
    | Unreadable _ e => Rejected e
    | Directory _ directories =>
        let fix each (ds : list Dirent) : list (Promise (list string)) :=
          match ds with
          | [] => []
          | dirEnt :: rest =>
              if isDirectory dirEnt
              then findGit (Path.join path (name dirEnt)) dirEnt :: each rest
              else each rest
          end in
        Promise.map (@concat string) (Promise.all (each directories))
    end.

(** ** The state of a run *)

Inductive ErrorLine : Type :=
| PathMessage (path msg : string)      (* console.error(path, e.message) *)
| Uncaught (e : Error).                (* console.error(e) *)

(** The fetch glyph: a check mark or a cross. *)
Inductive FetchStatus : Type := FetchOk | FetchFailed.

Definition fetchGlyph (f : FetchStatus) : string :=
  match f with
  | FetchOk => "✓"
  | FetchFailed => "✕"
  end.

(** The primary row of a repository, one field per column. *)
Record Row : Type := mkRow {
  rowName : string;
  rowNewCount : Z;
  rowModifiedCount : Z;
  rowDeletedCount : Z;
  rowRepo : string;
  rowBranch : string;
  rowFetchStatus : string;
  rowBehind : JsValue;
  rowAhead : JsValue;
  rowBehindDefault : JsValue;
  rowAheadDefault : JsValue;
  rowAction : string
}.

Inductive TableRow : Type :=
| Primary (r : Row)
| Secondary (text : string).

Inductive OutputLine : Type :=
| Table (header : list string) (rows : list TableRow)
| Legend (prefix : option string)
| Text (s : string).

Record World : Type := mkWorld {
  commonRepositoryPrefix : option string;
  errorStream : list ErrorLine;
  outputStream : list OutputLine
}.

Definition console_error (line : ErrorLine) (w : World) : World :=
  mkWorld (commonRepositoryPrefix w) (errorStream w ++ [line]) (outputStream w).

Definition console_log (line : OutputLine) (w : World) : World :=
  mkWorld (commonRepositoryPrefix w) (errorStream w) (outputStream w ++ [line]).

Definition setPrefix (p : option string) (w : World) : World :=
  mkWorld p (errorStream w) (outputStream w).

Definition emptyWorld : World := mkWorld None [] [].

(** ** The tally of status codes *)

Module AutoMap.

(** Modelled from the spec: the package [auto-creating-map] is not part
    of the sources.  [AutoMap] is the default-on-read, auto-vivifying
    map of the design notes: reading an absent key stores the value of
    the creator under that key and returns it. *)
Definition get (creator : Z) (key : string) (m : gmap string Z)
  : Z * gmap string Z :=
  match m !! key with
  | Some v => (v, m)
  | None => (creator, <[key := creator]> m)
  end.

Definition set (key : string) (v : Z) (m : gmap string Z) : gmap string Z :=
  <[key := v]> m.

End AutoMap.

(** [fileStatusCount.set(key, fileStatusCount.get(key) + 1)] *)
Definition countKey (fileStatusCount : gmap string Z) (key : string)
  : gmap string Z :=
  let '(v, m) := AutoMap.get 0%Z key fileStatusCount in
  AutoMap.set key (v + 1)%Z m.

(** The entries of [git status -z --porcelain=v1], as pairs of the
    two-character code and the path. *)
Definition statusEntries (out : string) : list (string * string) :=
  List.map (fun line => (JsString.slice line 0 2, JsString.sliceFrom line 3))
    (List.filter (fun line => 2 <? String.length line)
       (JsString.split "000" out)).

Definition tally (out : string) : gmap string Z :=
  fold_left (fun m entry => countKey m (fst entry)) (statusEntries out) ∅.

(** ** The recommended action *)

Inductive Action : Type := commit | resolve | pull | push | merge | pr | ok.

Definition actionName (a : Action) : string :=
  match a with
  | commit => "commit"
  | resolve => "resolve"
  | pull => "pull"
  | push => "push"
  | merge => "merge"
  | pr => "pr"
  | ok => "ok"
  end.

(** The variables that the callback of [status] binds for one
    repository. *)
Record RepositoryStatus : Type := mkStatus {
  repoName : string;
  fileStatusCount : gmap string Z;
  local : bool;
  newCount : Z;
  modifiedCount : Z;
  deletedCount : Z;
  branch : string;
  repo : string;
  fetchStatus : FetchStatus;
  behind : JsValue;
  ahead : JsValue;
  originDefault : string;
  behindDefault : JsValue;
  aheadDefault : JsValue
}.

(**
<<
let action = local ? 'commit'
    : ahead > 0 && behind > 0 ? "resolve"
        : behind > 0 ? "pull"
            : ahead > 0 ? "push"
                : behindDefault > 0 ? "merge"
                    : aheadDefault > 0 ? "pr"
                        : "ok";
>> *)
Definition action (s : RepositoryStatus) : Action :=
  if local s then commit
  else if gt0 (ahead s) && gt0 (behind s) then resolve
  else if gt0 (behind s) then pull
  else if gt0 (ahead s) then push
  else if gt0 (behindDefault s) then merge
  else if gt0 (aheadDefault s) then pr
  else ok.

(** The styling functions of [@dwbinns/terminal]. *)
Record Terminal : Type := mkTerminal {
  grey : string -> string;
  red : string -> string;
  green : string -> string;
  cyan : string -> string;
  yellow : string -> string;
  blue : string -> string;
  magenta : string -> string;
  underline : string -> string
}.

Definition plainTerminal : Terminal :=
  mkTerminal id id id id id id id id.

Section Program.

Context (execFile : string -> list string -> string -> Promise Output).
Context (term : Terminal).
Context (root : Dirent).

(**
<<
async function gitLogCount(cwd, from, to) {
    try {
        return ((await execFile("git", ["log", "--oneline", `${from}..${to}`],
                  { cwd })).stdout.split("\n").length - 1);
    } catch (e) {
        return "!";
    }
}
>> *)
Definition gitLogCount (cwd from to : string) : JsValue :=
  match execFile "git" ["log"; "--oneline"; from +:+ ".." +:+ to] cwd with
  | Resolved out =>
      Num (Z.of_nat (length (JsString.split "010" (stdout out))) - 1)%Z
  | Rejected _ => Str Bang
  end.

Definition git (cwd : string) (args : list string) : Promise string :=
  Promise.map (fun out => JsString.trim (stdout out)) (execFile "git" args cwd).

Definition getBranchName (repository : string) : Promise string :=
  Promise.map (fun out => JsString.trim (stdout out))
    (execFile "git" ["rev-parse"; "--abbrev-ref"; "HEAD"] repository).

Definition getRemoteDefault (repository : string) : Promise string :=
  Promise.map (fun out => JsString.trim (stdout out))
    (execFile "git" ["rev-parse"; "--abbrev-ref"; "origin/HEAD"] repository).

(** [promise.catch((e) => v)] followed by [await] *)
Definition catch {A : Type} (p : Promise A) (handler : Error -> A) : A :=
  match p with
  | Resolved v => v
  | Rejected e => handler e
  end.

(**
<<
const forEachRepo = async (action) => {
    let gitDirectories = await findGit(".");
    return await Promise.all(
        gitDirectories.map(async (path) => {
            try {
                return await action(path, path);
            } catch (e) {
                console.error(path, e.message);
            }
        })
    );
};
>>
    A repository whose action throws leaves [undefined] in the result,
    here [None]. *)
Fixpoint eachRepo {A : Type}
    (act : string -> string -> World -> Promise A * World)
    (gitDirectories : list string) (w : World) : list (option A) * World :=
  match gitDirectories with
  | [] => ([], w)
  | path :: rest =>
      let '(r, w1) := act path path w in
      let '(slot, w2) :=
        match r with
        | Resolved v => (Some v, w1)
        | Rejected e => (None, console_error (PathMessage path (message e)) w1)
        end in
      let '(slots, w3) := eachRepo act rest w2 in
      (slot :: slots, w3)
  end.

Definition forEachRepo {A : Type}
    (act : string -> string -> World -> Promise A * World) (w : World)
  : Promise (list (option A)) * World :=
  match findGit "." root with
  | Rejected e => (Rejected e, w)
  | Resolved gitDirectories =>
      let '(slots, w') := eachRepo act gitDirectories w in
      (Resolved slots, w')
  end.

(** The callback of [status], up to the choice of the action: the
    queries of one repository, in the order of the source. *)
Definition collect (name cwd : string) (w : World)
  : Promise RepositoryStatus * World :=
  match execFile "git" ["status"; "-z"; "--porcelain=v1"] cwd with
  | Rejected e => (Rejected e, w)
  | Resolved out =>
      let fileStatusCount := tally (stdout out) in
      let local := (0 <? size fileStatusCount) in
      let '(newCount, fileStatusCount) :=
        AutoMap.get 0%Z "??" fileStatusCount in
      let '(modifiedCount, fileStatusCount) :=
        AutoMap.get 0%Z " M" fileStatusCount in
      let '(deletedCount, fileStatusCount) :=
        AutoMap.get 0%Z " D" fileStatusCount in
      let branch := catch (getBranchName cwd) (fun _ => EmptyString) in
      let repo :=
        JsString.trim
          (catch
             (Promise.map stdout
                (execFile "git" ["config"; "--get"; "remote.origin.url"] cwd))
             errStdout) in
      let w := setPrefix (updatePrefix (commonRepositoryPrefix w) repo) w in
      let fetchStatus :=
        catch (Promise.map (fun _ => FetchOk) (execFile "git" ["fetch"] cwd))
          (fun _ => FetchFailed) in
      let behind :=
        if JsString.truthy branch then gitLogCount cwd "HEAD" "@{u}"
        else Str Blank in
      let ahead :=
        if JsString.truthy branch then gitLogCount cwd "@{u}" "HEAD"
        else Str Blank in
      let originDefault := catch (getRemoteDefault cwd) (fun _ => EmptyString) in
      let behindDefault :=
        if JsString.truthy originDefault
        then gitLogCount cwd "HEAD" originDefault else Str Question in
      let aheadDefault :=
        if JsString.truthy originDefault
        then gitLogCount cwd originDefault "HEAD" else Str Question in
      (Resolved
         (mkStatus name fileStatusCount local newCount modifiedCount
            deletedCount branch repo fetchStatus behind ahead originDefault
            behindDefault aheadDefault), w)
  end.

(** The explanation of an action; the object literal of the source is
    indexed by the action. *)
Definition detailedAction (a : Action) (branch originDefault : string)
  : string :=
  match a with
  | commit =>
      "Local files have been modified, run " +:+ cyan term "git commit"
      +:+ " to save or " +:+ cyan term "git reset --hard" +:+ " to lose them"
  | resolve =>
      "The local branch and the remote tracking branch have diverged.
- Merge: " +:+ cyan term ("git merge origin/" +:+ branch)
      +:+ " if commits from both local and remote should be integrated
- Rebase " +:+ cyan term ("git rebase origin/" +:+ branch)
      +:+ " if no-one else is working on this branch
- Force push " +:+ cyan term "git push --force"
      +:+ " if a local rebase should overwrite the remote commits
- Run " +:+ cyan term ("git reset origin/" +:+ branch)
      +:+ " if you want to replace local commits with the remote commits"
  | pull =>
      "The remote tracking branch has commits which are not present locally. Run "
      +:+ cyan term "git pull"
  | push =>
      "The local branch has commits not present in the remote branch. Run "
      +:+ cyan term "git push --follow-tags"
  | merge =>
      "The default branch has commits not present in the local branch
- Run " +:+ cyan term ("git merge " +:+ originDefault)
      +:+ " to merge changes from " +:+ originDefault +:+ " into " +:+ branch
      +:+ "
- Run " +:+ cyan term ("git rebase " +:+ originDefault)
      +:+ " to rebase local commits onto latest changes from " +:+ originDefault
  | pr => "Create a PR to merge this branch into the default branch"
  | ok => EmptyString
  end.

Definition colour (a : Action) : option (string -> string) :=
  match a with
  | commit => Some (blue term)
  | resolve => Some (red term)
  | pull => Some (cyan term)
  | push => Some (yellow term)
  | merge => Some (magenta term)
  | pr => Some (green term)
  | ok => None
  end.

(** The array that the callback returns: the twelve cells of the row and
    the explanation. *)
Definition rowOf (s : RepositoryStatus) : Row * string :=
  (mkRow (repoName s) (newCount s) (modifiedCount s) (deletedCount s)
     (repo s) (branch s) (fetchGlyph (fetchStatus s))
     (behind s) (ahead s) (behindDefault s) (aheadDefault s)
     (match colour (action s) with
      | Some paint => paint (actionName (action s))
      | None => actionName (action s)
      end),
   detailedAction (action s) (branch s) (originDefault s)).

Definition statusAction (name cwd : string) (w : World)
  : Promise (Row * string) * World :=
  let '(s, w') := collect name cwd w in (Promise.map rowOf s, w').

Definition header : list string :=
  ["directory"; "#A"; "#M"; "#D"; "repository"; "branch";
   "⇵"; "↓"; "↑"; "↘"; "↖"; "action"].

(** The callback of [rows.flatMap]: its parameter is an array pattern, so
    an [undefined] element throws a [TypeError]; so does reading
    [length] of a [null] prefix. *)
Definition displayRows (prefix : option string) (slot : option (Row * string))
  : Promise (list TableRow) :=
  match slot with
  | None => Rejected (typeError "undefined is not iterable")
  | Some (r, explanation) =>
      match prefix with
      | None =>
          Rejected (typeError "Cannot read properties of null (reading 'length')")
      | Some p =>
          Resolved
            [Primary
               (mkRow (rowName r) (rowNewCount r) (rowModifiedCount r)
                  (rowDeletedCount r)
                  (JsString.sliceFrom (rowRepo r) (String.length p))
                  (rowBranch r) (rowFetchStatus r) (rowBehind r) (rowAhead r)
                  (rowBehindDefault r) (rowAheadDefault r) (rowAction r));
             Secondary (grey term explanation)]
      end
  end.

(** [rows.flatMap(callback)]: the first exception of a callback ends it. *)
Definition flatMapRows (prefix : option string)
    (rows : list (option (Row * string))) : Promise (list TableRow) :=
  Promise.map (@concat TableRow)
    (Promise.all (List.map (displayRows prefix) rows)).

(** A value that a command returns and that becomes the exit code. *)
Inductive JsRet : Type :=
| Undefined
| NumberV (n : Z)
| StringV (s : string)
| BooleanV (b : bool)
| ObjectV.

(** [status()]: returns [0] after printing the table. *)
Definition status (w : World) : Promise JsRet * World :=
  let w := setPrefix None w in
  match forEachRepo statusAction w with
  | (Rejected e, w) => (Rejected e, w)
  | (Resolved rows, w) =>
      match flatMapRows (commonRepositoryPrefix w) rows with
      | Rejected e => (Rejected e, w)
      | Resolved rows =>
          (Resolved (NumberV 0),
           console_log (Legend (commonRepositoryPrefix w))
             (console_log (Table header rows) w))
      end
  end.

(** ** The dispatcher *)

Inductive Command : Type :=
| Status | Run | Commit | Branch | Checkout | Pull | Push | Help.

(** [let commands = { status, run, commit, branch, checkout, pull, push, help }] *)
Definition commands : list (string * Command) :=
  [("status", Status); ("run", Run); ("commit", Commit); ("branch", Branch);
   ("checkout", Checkout); ("pull", Pull); ("push", Push); ("help", Help)].

(** [commands] is an object literal, so it inherits the properties of
    [Object.prototype]. *)
Definition objectPrototype : list string :=
  ["constructor"; "__defineGetter__"; "__defineSetter__"; "hasOwnProperty";
   "__lookupGetter__"; "__lookupSetter__"; "isPrototypeOf";
   "propertyIsEnumerable"; "toString"; "valueOf"; "__proto__";
   "toLocaleString"].

Inductive Callee : Type :=
| Own (c : Command)
| Inherited (property : string).

Definition ownProperty (key : string) : option Command :=
  snd <$> List.find (fun entry => String.eqb (fst entry) key) commands.

(** [commands[key]]: an own property, else an inherited one, else
    [undefined].  An absent argument is the key ["undefined"]. *)
Definition getProperty (key : option string) : option Callee :=
  let key := default "undefined" key in
  match ownProperty key with
  | Some c => Some (Own c)
  | None =>
      if List.existsb (String.eqb key) objectPrototype
      then Some (Inherited key) else None
  end.

(** [commands[command] || help]: functions and objects are truthy. *)
Definition selected (command : option string) : Callee :=
  default (Own Help) (getProperty command).

(** The properties [command] and [help] of the command functions. *)
Definition usage (c : Command) : option string :=
  match c with
  | Run => Some "<command> <args> ..."
  | Branch => Some "<new-branch-name>"
  | Checkout => Some "<existing-branch-name>"
  | Help => Some "[<subcommand>]"
  | _ => None
  end.

Definition helpText (c : Command) : option string :=
  match c with
  | Status => Some "
Show status including recommended action for each repository.
"
  | Run => Some "
Run a command in each git directory, eg:
all-git run jq .version package.json
"
  | Branch => Some "
Create a new branch in each git directory,
configure tracking and push to same named branch in origin remote
"
  | Checkout => Some "
Create an existing branch in each git directory.
"
  | Help => Some "Get help on subcommand. Omit for a summary of all commands"
  | _ => None
  end.

Definition help (args : list string) (w : World) : World :=
  match List.head args with
  | Some commandName =>
      if JsString.truthy commandName then
        match getProperty (Some commandName) with
        | Some (Own c) =>
            console_log (Text (default EmptyString (helpText c)))
              (console_log
                 (Text ("all-git " +:+ commandName +:+ " "
                        +:+ default EmptyString (usage c))) w)
        | Some (Inherited _) =>
            console_log (Text EmptyString)
              (console_log (Text ("all-git " +:+ commandName +:+ " ")) w)
        | None => console_log (Text "Subcommand not known") w
        end
      else
        fold_left
          (fun w entry =>
             console_log
               (Text ("all-git " +:+ fst entry +:+ " "
                      +:+ default EmptyString (usage (snd entry)))) w)
          commands w
  | None =>
      fold_left
        (fun w entry =>
           console_log
             (Text ("all-git " +:+ fst entry +:+ " "
                    +:+ default EmptyString (usage (snd entry)))) w)
        commands w
  end.

(** The pass-through commands ([run], [commit], [branch], [checkout],
    [pull], [push]) are outside the core: what they print and whether
    they throw is the parameter [passthrough].  None of them has a
    [return] statement, so each resolves to [undefined]. *)
Context (passthrough : Command -> list string -> World -> Promise unit * World).

(** A function of [Object.prototype] called with [this] undefined. *)
Definition callInherited (property : string) : Promise JsRet :=
  if String.eqb property "toString" then Resolved (StringV "[object Undefined]")
  else if String.eqb property "isPrototypeOf" then Resolved (BooleanV false)
  else if String.eqb property "constructor" then Resolved ObjectV
  else if String.eqb property "__proto__"
  then Rejected (typeError "(commands[command] || help) is not a function")
  else Rejected (typeError "Cannot convert undefined or null to object").

Definition call (callee : Callee) (args : list string) (w : World)
  : Promise JsRet * World :=
  match callee with
  | Own Status => status w
  | Own Help => (Resolved Undefined, help args w)
  | Own c =>
      let '(r, w') := passthrough c args w in
      (Promise.map (fun _ => Undefined) r, w')
  | Inherited property => (callInherited property, w)
  end.

(**
<<
(async (command, ...args) => {
    return await (commands[command] || help)(...args) ?? 0;
})(...process.argv.slice(2))
    .catch(console.error)
    .then((code = 1) => (process.exitCode = code));
>>
    [argv] is [process.argv.slice(2)]; the result is the final world and
    the value assigned to [process.exitCode]. *)
Definition main (argv : list string) (w : World) : World * JsRet :=
  let command := List.head argv in
  let args := List.tail argv in
  match call (selected command) args w with
  | (Resolved Undefined, w') => (w', NumberV 0)
  | (Resolved code, w') => (w', code)
  | (Rejected e, w') => (console_error (Uncaught e) w', NumberV 1)
  end.

End Program.

(** ** The pass-through commands

    They live in a module of their own: [branch], [commit], [pull] and
    [push] are also the names of a field and of three actions. *)

Module Commands.

Section Commands.

Context (execFile : string -> list string -> string -> Promise Output).
Context (term : Terminal).
Context (root : Dirent).

(**
<<
async function outputEachRepo(callback) {
    let results = await forEachRepo(async (name, cwd) =>
        underline(cyan(name)) + "\n" + await callback(name, cwd)
    );
    console.log(results.join("\n"));
}
>>
    The callbacks of the program only query [execFile]; [join] prints an
    [undefined] element as the empty string. *)
Definition outputEachRepo (callback : string -> string -> Promise string)
    (w : World) : Promise unit * World :=
  match
    forEachRepo root
      (fun name cwd w =>
         (Promise.map
            (fun out =>
               underline term (cyan term name) +:+ String "010" EmptyString
               +:+ out)
            (callback name cwd), w)) w
  with
  | (Rejected e, w') => (Rejected e, w')
  | (Resolved results, w') =>
      (Resolved tt,
       console_log
         (Text
            (JsString.join (String "010" EmptyString)
               (List.map (default EmptyString) results))) w')
  end.

(**
<<
async function run(command, ...args) {
    return await outputEachRepo(async (name, cwd) =>
        (await execFile(command, args, { cwd })).stdout.trim()
    );
}
>> *)
Definition run (command : string) (args : list string) (w : World)
  : Promise unit * World :=
  outputEachRepo
    (fun name cwd =>
       Promise.map (fun out => JsString.trim (stdout out))
         (execFile command args cwd)) w.

(** [branch(branchName)], for a name that is given. *)
Definition branch (branchName : string) (w : World) : Promise unit * World :=
  match run "git" ["checkout"; "-b"; branchName] w with
  | (Rejected e, w') => (Rejected e, w')
  | (Resolved _, w') => run "git" ["push"; "-u"; "origin"; "HEAD"] w'
  end.

(** [s.replace(/^[^/]*\//, '')]: the text after the first separator, the
    string itself when it has none. *)
Fixpoint afterFirstSlash (s : string) : option string :=
  match s with
  | EmptyString => None
  | String c s' => if Ascii.eqb c "/" then Some s' else afterFirstSlash s'
  end.

Definition stripRemote (s : string) : string :=
  default s (afterFirstSlash s).

(**
<<
async function checkout(branchName) {
    await outputEachRepo(async (name, cwd) =>
        await git(cwd, "checkout",
          branchName || (await getRemoteDefault(cwd)).replace(/^[^/]*\//, ''))
    );
}
>>
    An absent name and the empty name are both falsy. *)
Definition checkout (branchName : option string) (w : World)
  : Promise unit * World :=
  outputEachRepo
    (fun name cwd =>
       match
         (if JsString.truthy (default EmptyString branchName)
          then Resolved (default EmptyString branchName)
          else Promise.map stripRemote (getRemoteDefault execFile cwd))
       with
       | Rejected e => Rejected e
       | Resolved target => git execFile cwd ["checkout"; target]
       end) w.

Definition push (w : World) : Promise unit * World := run "git" ["push"] w.

Definition pull (w : World) : Promise unit * World := run "git" ["pull"] w.

(** [commit(message)], for a message that is given. *)
Definition commit (message : string) (w : World) : Promise unit * World :=
  match run "git" ["add"; "-u"] w with
  | (Rejected e, w') => (Rejected e, w')
  | (Resolved _, w') => run "git" ["commit"; "-m"; message] w'
  end.

(** The pass-through commands as the dispatcher calls them.  What [run],
    [branch] and [commit] do without their argument depends on how the
    runtime treats an [undefined] argument of [execFile]: it is left as
    the parameter [absent]. *)
Definition passthroughCommands
    (absent : Command -> World -> Promise unit * World)
    (c : Command) (args : list string) (w : World) : Promise unit * World :=
  match c, args with
  | Run, command :: rest => run command rest w
  | Pull, _ => pull w
  | Push, _ => push w
  | Checkout, _ => checkout (List.head args) w
  | Branch, branchName :: _ => branch branchName w
  | Commit, message :: _ => commit message w
  | _, _ => absent c w
  end.

End Commands.

End Commands.

(** ** Definitions on the side of the specification *)

(** The longest common leading substring, by structural recursion. *)
Fixpoint lcp (a b : string) : string :=
  match a, b with
  | String x a', String y b' =>
      if Ascii.eqb x y then String x (lcp a' b') else EmptyString
  | _, _ => EmptyString
  end.

(** [p] is a leading substring of [s]. *)
Definition isPrefix (p s : string) : Prop := exists rest, s = p +:+ rest.

(** The first character of a string, if any. *)
Definition firstChar (s : string) : option ascii := String.get 0 s.

(** The five observations that the decision reads. *)
Record Observation : Type := mkObservation {
  hasLocalChanges : bool;
  upstreamBehind : JsValue;
  upstreamAhead : JsValue;
  defaultBehind : JsValue;
  defaultAhead : JsValue
}.

Definition observe (s : RepositoryStatus) : Observation :=
  mkObservation (local s) (behind s) (ahead s) (behindDefault s)
    (aheadDefault s).

(** The decision order of the specification: a list of rules, each a
    condition and the action it selects; the first rule whose condition
    holds wins, and [ok] is chosen when none does. *)
Definition rules : list ((Observation -> bool) * Action) :=
  [ (hasLocalChanges, commit);
    (fun o => gt0 (upstreamAhead o) && gt0 (upstreamBehind o), resolve);
    (fun o => gt0 (upstreamBehind o) && negb (gt0 (upstreamAhead o)), pull);
    (fun o => gt0 (upstreamAhead o) && negb (gt0 (upstreamBehind o)), push);
    (fun o => gt0 (defaultBehind o), merge);
    (fun o => gt0 (defaultAhead o), pr) ].

Fixpoint firstMatch (rs : list ((Observation -> bool) * Action))
    (o : Observation) : Action :=
  match rs with
  | [] => ok
  | (condition, a) :: rest => if condition o then a else firstMatch rest o
  end.

Definition decision (o : Observation) : Action := firstMatch rules o.

Inductive Field : Type :=
| HasLocalChanges | UpstreamBehind | UpstreamAhead | DefaultBehind
| DefaultAhead.

(** The fields that the rules read up to and including the rule that
    selects the action: every later field is irrelevant to it. *)
Definition relevant (a : Action) : list Field :=
  match a with
  | commit => [HasLocalChanges]
  | resolve | pull | push => [HasLocalChanges; UpstreamBehind; UpstreamAhead]
  | merge => [HasLocalChanges; UpstreamBehind; UpstreamAhead; DefaultBehind]
  | pr | ok =>
      [HasLocalChanges; UpstreamBehind; UpstreamAhead; DefaultBehind;
       DefaultAhead]
  end.

Definition agreeOn (f : Field) (o1 o2 : Observation) : Prop :=
  match f with
  | HasLocalChanges => hasLocalChanges o1 = hasLocalChanges o2
  | UpstreamBehind => upstreamBehind o1 = upstreamBehind o2
  | UpstreamAhead => upstreamAhead o1 = upstreamAhead o2
  | DefaultBehind => defaultBehind o1 = defaultBehind o2
  | DefaultAhead => defaultAhead o1 = defaultAhead o2
  end.

(** An unknown divergence read as the number zero. *)
Definition asZero (v : JsValue) : JsValue :=
  match v with
  | Num n => Num n
  | Str _ => Num 0
  end.

Definition unknownsAsZero (s : RepositoryStatus) : RepositoryStatus :=
  mkStatus (repoName s) (fileStatusCount s) (local s) (newCount s)
    (modifiedCount s) (deletedCount s) (branch s) (repo s) (fetchStatus s)
    (asZero (behind s)) (asZero (ahead s)) (originDefault s)
    (asZero (behindDefault s)) (asZero (aheadDefault s)).

(** The number of entries that carry a status code. *)
Definition occurrences (key : string) (entries : list (string * string)) : Z :=
  Z.of_nat (length (List.filter (fun e => String.eqb (fst e) key) entries)).

(** A divergence value is unknown when it is one of the marker strings. *)
Definition unknown (v : JsValue) : Prop := exists m, v = Str m.

(** ** The directory tree, as the specification sees it *)

(** The path of the directory reached from the scan root through the
    directories named by [segs]. *)
Definition render (segs : list string) : string :=
  match segs with
  | [] => "."
  | _ => JsString.join "/" segs
  end.

Fixpoint slashFree (s : string) : bool :=
  match s with
  | EmptyString => true
  | String c s' => negb (Ascii.eqb c "/") && slashFree s'
  end.

(** A name that a directory listing can hold: it is not empty, has no
    separator and is neither the directory itself nor its parent. *)
Definition validName (n : string) : bool :=
  slashFree n && negb (String.eqb n EmptyString)
  && negb (String.eqb n ".") && negb (String.eqb n "..").

Fixpoint distinct (l : list string) : bool :=
  match l with
  | [] => true
  | x :: rest => negb (existsb (String.eqb x) rest) && distinct rest
  end.

(** In every directory the names are valid and pairwise different. *)
Fixpoint wellFormed (node : Dirent) : bool :=
  match node with
  | Directory _ entries =>
      forallb validName (List.map name entries)
      && distinct (List.map name entries)
      && forallb wellFormed entries
  | _ => true
  end.

(** A subdirectory that the walk lists: any directory but [.git]. *)
Definition listed (dirEnt : Dirent) : bool :=
  isDirectory dirEnt && negb (String.eqb (name dirEnt) ".git").

(** Every directory that the walk lists can be read. *)
Fixpoint scannable (node : Dirent) : bool :=
  match node with
  | Directory _ entries =>
      forallb (fun dirEnt => negb (listed dirEnt) || scannable dirEnt) entries
  | _ => false
  end.

(** A working tree: a directory with a [.git] directory in it. *)
Definition hasGitDir (node : Dirent) : bool :=
  match node with
  | Directory _ entries =>
      existsb
        (fun dirEnt => isDirectory dirEnt && String.eqb (name dirEnt) ".git")
        entries
  | _ => false
  end.

(** [Reach node segs node']: [node'] is the directory found from [node]
    by descending through the subdirectories [segs], none of them a
    [.git].  Having a [.git] child does not stop the descent. *)
Inductive Reach : Dirent -> list string -> Dirent -> Prop :=
| reach_here (node : Dirent) : Reach node [] node
| reach_below (n : string) (entries : list Dirent) (dirEnt : Dirent)
    (segs : list string) (node' : Dirent) :
    In dirEnt entries -> listed dirEnt = true -> Reach dirEnt segs node' ->
    Reach (Directory n entries) (name dirEnt :: segs) node'.

(** The working trees below [node], each as the list of the directory
    names that lead to it from [node], in listing order. *)
Fixpoint workingTrees (node : Dirent) : list (list string) :=
  match node with
  | Directory _ entries =>
      List.flat_map
        (fun dirEnt =>
           if isDirectory dirEnt then
             if String.eqb (name dirEnt) ".git" then [[]]
             else List.map (cons (name dirEnt)) (workingTrees dirEnt)
           else [])
        entries
  | _ => []
  end.

(** What one entry of a directory contributes to its working trees. *)
Definition treesBelow (dirEnt : Dirent) : list (list string) :=
  if isDirectory dirEnt then
    if String.eqb (name dirEnt) ".git" then [[]]
    else List.map (cons (name dirEnt)) (workingTrees dirEnt)
  else [].

(** The path built by joining the names [segs] to [path], one by one. *)
Definition descend (path : string) (segs : list string) : string :=
  fold_left Path.join segs path.

(** ** What a run of [status] does, repository by repository *)

Section Slots.

Context (execFile : string -> list string -> string -> Promise Output).
Context (term : Terminal).

(** The element of [rows] for a repository: its row and explanation, or
    [undefined] when its status listing is rejected. *)
Definition slotOf (path : string) : option (Row * string) :=
  match fst (statusAction execFile term path path emptyWorld) with
  | Resolved row => Some row
  | Rejected _ => None
  end.

(** The line that a failing repository leaves on the error stream. *)
Definition errorOf (path : string) : option ErrorLine :=
  match fst (statusAction execFile term path path emptyWorld) with
  | Resolved _ => None
  | Rejected e => Some (PathMessage path (message e))
  end.

(** The remote URLs of the rows that were produced. *)
Definition urlsOf (slots : list (option (Row * string))) : list string :=
  List.map (fun row => rowRepo (fst row)) (omap id slots).

(** The rows of the table for the produced rows, given the prefix. *)
Definition shownRows (p : string) (rows : list (Row * string))
  : list TableRow :=
  List.flat_map
    (fun row =>
       [Primary
          (mkRow (rowName (fst row)) (rowNewCount (fst row))
             (rowModifiedCount (fst row)) (rowDeletedCount (fst row))
             (JsString.sliceFrom (rowRepo (fst row)) (String.length p))
             (rowBranch (fst row)) (rowFetchStatus (fst row))
             (rowBehind (fst row)) (rowAhead (fst row))
             (rowBehindDefault (fst row)) (rowAheadDefault (fst row))
             (rowAction (fst row)));
        Secondary (grey term (snd row))])
    rows.

End Slots.

(** The prefix as the claim describes it: the reduction over the remote
    URLs that are not empty. *)
Definition prefixOfNonEmpty (urls : list string) : option string :=
  reducePrefix (List.filter JsString.truthy urls).

(** ** Example worlds

    A scripted [git]: the answers of one repository to the queries of
    [status]; [logAnswer] takes the commit range. *)

Record Answers : Type := mkAnswers {
  statusAnswer : Promise Output;
  branchAnswer : Promise Output;
  urlAnswer : Promise Output;
  fetchAnswer : Promise Output;
  defaultAnswer : Promise Output;
  logAnswer : string -> Promise Output
}.

Definition exitCode1 : Promise Output :=
  Rejected (mkError "Command failed" EmptyString).

Definition scripted (answers : string -> Answers) (command : string)
    (args : list string) (cwd : string) : Promise Output :=
  if negb (String.eqb command "git") then exitCode1
  else
    match args with
    | ["status"; "-z"; "--porcelain=v1"] => statusAnswer (answers cwd)
    | ["rev-parse"; "--abbrev-ref"; "HEAD"] => branchAnswer (answers cwd)
    | ["config"; "--get"; "remote.origin.url"] => urlAnswer (answers cwd)
    | ["fetch"] => fetchAnswer (answers cwd)
    | ["rev-parse"; "--abbrev-ref"; "origin/HEAD"] => defaultAnswer (answers cwd)
    | ["log"; "--oneline"; range] => logAnswer (answers cwd) range
    | _ => exitCode1
    end.

Definition says (text : string) : Promise Output := Resolved (mkOutput text).

Definition nul : string := String "000" EmptyString.
Definition newline : string := String "010" EmptyString.

(** A clean repository on [main], in sync with its upstream and with the
    default branch. *)
Definition cleanRepo (url : string) : Answers :=
  mkAnswers (says EmptyString) (says ("main" +:+ newline))
    (says (url +:+ newline)) (says EmptyString)
    (says ("origin/main" +:+ newline)) (fun _ => says EmptyString).

(** The same with one untracked file. *)
Definition untrackedRepo (url : string) : Answers :=
  mkAnswers (says ("?? notes.txt" +:+ nul)) (says ("main" +:+ newline))
    (says (url +:+ newline)) (says EmptyString)
    (says ("origin/main" +:+ newline)) (fun _ => says EmptyString).

(** A repository without remote: no URL, no upstream, no default branch. *)
Definition noRemoteRepo : Answers :=
  mkAnswers (says EmptyString) (says ("main" +:+ newline))
    exitCode1 exitCode1 exitCode1 (fun _ => exitCode1).

(** A repository whose status listing fails. *)
Definition brokenRepo : Answers :=
  mkAnswers (Rejected (mkError "EACCES: permission denied" EmptyString))
    exitCode1 exitCode1 exitCode1 exitCode1 (fun _ => exitCode1).

(** Two repositories [a] and [b] under the scan root. *)
Definition twoRepos : Dirent :=
  Directory "."
    [Directory "a" [Directory ".git" []; File "README.md"];
     Directory "b" [Directory ".git" []]].

(** Worlds over [twoRepos]: two clean repositories of one organisation;
    a clean repository next to one without remote; a clean repository
    next to one whose status listing fails. *)
Definition sameOrganisation (cwd : string) : Answers :=
  if String.eqb cwd "a" then cleanRepo "git@host:org/a.git"
  else cleanRepo "git@host:org/b.git".

Definition oneWithoutRemote (cwd : string) : Answers :=
  if String.eqb cwd "a" then cleanRepo "git@host:org/a.git"
  else noRemoteRepo.

Definition oneBroken (cwd : string) : Answers :=
  if String.eqb cwd "b" then brokenRepo
  else cleanRepo "git@host:org/a.git".

(** A repository at the scan root with a second one nested in its
    working tree; the content of the outer [.git] cannot be read. *)
Definition nestedRepos : Dirent :=
  Directory "."
    [Directory ".git" [Unreadable "objects" (mkError "EACCES" EmptyString)];
     File "README.md";
     Directory "vendor"
       [Directory "lib" [Directory ".git" []; File "lib.js"]];
     Directory "src" []].

Definition noPassthrough (c : Command) (args : list string) (w : World)
  : Promise unit * World := (Resolved tt, w).

(** ** Definitions for the further properties *)

(** The number of occurrences of a character. *)
Fixpoint countChar (c : ascii) (s : string) : nat :=
  match s with
  | EmptyString => 0
  | String x s' => (if Ascii.eqb x c then 1 else 0) + countChar c s'
  end.

(** The character does not occur. *)
Fixpoint charFree (c : ascii) (s : string) : bool :=
  match s with
  | EmptyString => true
  | String x s' => negb (Ascii.eqb x c) && charFree c s'
  end.

(** Every field followed by the separator, as [git] prints lines and
    NUL-terminated fields. *)
Fixpoint terminated (sep : ascii) (fields : list string) : string :=
  match fields with
  | [] => EmptyString
  | field :: rest => field +:+ String sep (terminated sep rest)
  end.

(** A status entry as [git status -z --porcelain=v1] prints it. *)
Definition printEntry (entry : string * string) : string :=
  fst entry +:+ String " " (snd entry).

(** A repository on a branch without upstream, two commits ahead of the
    default branch. *)
Definition noUpstreamRepo : Answers :=
  mkAnswers (says EmptyString) (says ("topic" +:+ newline))
    (says ("git@host:org/a.git" +:+ newline)) (says EmptyString)
    (says ("origin/main" +:+ newline))
    (fun range =>
       if String.eqb range "origin/main..HEAD"
       then says (terminated "010" ["1f3a one"; "77b0 two"])
       else if String.eqb range "HEAD..origin/main" then says EmptyString
       else exitCode1).

(** The pass-through commands whose arguments the command line gives. *)
Definition argumentGiven (c : Command) (args : list string) : bool :=
  match c, args with
  | Run, _ :: _ | Branch, _ :: _ | Commit, _ :: _ => true
  | Pull, _ | Push, _ | Checkout, _ => true
  | _, _ => false
  end.

(** A [git] that fails in every repository. *)
Definition alwaysFails (command : string) (args : list string) (cwd : string)
  : Promise Output := exitCode1.

Definition noAbsent (c : Command) (w : World) : Promise unit * World :=
  (Resolved tt, w).


(** The line of the summary of [help] for one command. *)
Definition usageLine (entry : string * Command) : string :=
  "all-git " +:+ fst entry +:+ " " +:+ default EmptyString (usage (snd entry)).

(** A tree with a directory that cannot be listed, next to a repository. *)
Definition lockedTree : Dirent :=
  Directory "."
    [Directory "a" [Directory ".git" []];
     Directory "private" [Unreadable "keys" (mkError "EACCES" EmptyString)]].

(** An entry that [git] can print: a code of two characters and a path,
    both without NUL. *)
Definition validEntry (entry : string * string) : bool :=
  (String.length (fst entry) =? 2)
  && charFree "000" (fst entry) && charFree "000" (snd entry).

(** What a field of the status listing is read as. *)
Definition readField (field : string) : string * string :=
  (JsString.slice field 0 2, JsString.sliceFrom field 3).

Section Blocks.

Context (term : Terminal).
Context (callback : string -> string -> Promise string).

(** What [outputEachRepo] prints for one repository. *)
Definition blockOf (path : string) : string :=
  match callback path path with
  | Resolved out =>
      underline term (cyan term path) +:+ String "010" EmptyString +:+ out
  | Rejected _ => EmptyString
  end.

(** What it writes to the error stream for one repository. *)
Definition failureOf (path : string) : option ErrorLine :=
  match callback path path with
  | Resolved _ => None
  | Rejected e => Some (PathMessage path (message e))
  end.

(** The state after [outputEachRepo] over the repositories [dirs]. *)
Definition reported (dirs : list string) (w : World) : World :=
  mkWorld (commonRepositoryPrefix w)
    (errorStream w ++ omap failureOf dirs)
    (outputStream w
     ++ [Text (JsString.join (String "010" EmptyString)
                 (List.map blockOf dirs))]).

End Blocks.

(** The callback of [run]. *)
Definition commandOutput
    (execFile : string -> list string -> string -> Promise Output)
    (command : string) (args : list string) (name cwd : string)
  : Promise string :=
  Promise.map (fun out => JsString.trim (stdout out))
    (execFile command args cwd).

(** The callback of [checkout] without branch name. *)
Definition checkoutDefault
    (execFile : string -> list string -> string -> Promise Output)
    (name cwd : string) : Promise string :=
  match Promise.map Commands.stripRemote (getRemoteDefault execFile cwd) with
  | Rejected e => Rejected e
  | Resolved target => git execFile cwd ["checkout"; target]
  end.

(** * Properties *)

(** ** The definitions on small inputs *)

Example commonPrefix_urls :
  commonPrefix "git@host:org/a.git" "git@host:org/b.git" = "git@host:org/".
Proof. reflexivity. Qed.

Example commonPrefix_shorter : commonPrefix "abc" "ab" = "ab".
Proof. reflexivity. Qed.

Example commonPrefix_empty : commonPrefix "abc" EmptyString = EmptyString.
Proof. reflexivity. Qed.

Example split_lines :
  JsString.split "010" ("1f3a one" +:+ newline +:+ "77b0 two" +:+ newline)
  = ["1f3a one"; "77b0 two"; EmptyString].
Proof. reflexivity. Qed.

Example split_empty : JsString.split "010" EmptyString = [EmptyString].
Proof. reflexivity. Qed.

Example trim_output : JsString.trim ("  main " +:+ newline) = "main".
Proof. reflexivity. Qed.

Example statusEntries_two :
  statusEntries (" M src/a.js" +:+ nul +:+ "?? notes.txt" +:+ nul)
  = [(" M", "src/a.js"); ("??", "notes.txt")].
Proof. reflexivity. Qed.

Example tally_two :
  tally ("?? a" +:+ nul +:+ " M b" +:+ nul +:+ "?? c" +:+ nul)
  = <["??" := 2%Z]> (<[" M" := 1%Z]> ∅).
Proof. vm_compute. reflexivity. Qed.

Example gt0_values :
  gt0 (Num 3) = true /\ gt0 (Num 0) = false /\ gt0 (Str Bang) = false
  /\ gt0 (Str Blank) = false /\ gt0 (Str Question) = false.
Proof. repeat split. Qed.

Example cellText_values :
  cellText (Num 0) = "0" /\ cellText (Num 12) = "12"
  /\ cellText (Str Bang) = "!" /\ cellText (Str Blank) = EmptyString.
Proof. repeat split. Qed.

Example path_functions :
  Path.join "." "a" = "a" /\ Path.join "a" ".git" = "a/.git"
  /\ Path.basename "a/b/.git" = ".git" /\ Path.dirname "a/b/.git" = "a/b"
  /\ Path.dirname ".git" = "." /\ Path.basename "." = ".".
Proof. repeat split. Qed.

Example findGit_nested : findGit "." nestedRepos = Resolved ["."; "vendor/lib"].
Proof. reflexivity. Qed.

Example findGit_unreadable :
  findGit "." (Directory "." [Unreadable "private" (mkError "EACCES" EmptyString)])
  = Rejected (mkError "EACCES" EmptyString).
Proof. reflexivity. Qed.

(** ** Strings *)

Lemma append_nil_l (s : string) : EmptyString +:+ s = s.
Proof. reflexivity. Qed.

Lemma append_cons (c : ascii) (s t : string) :
  String c s +:+ t = String c (s +:+ t).
Proof. reflexivity. Qed.

Lemma append_empty_r (s : string) : s +:+ EmptyString = s.
Proof.
  induction s as [|c s IH]; [done|]. by rewrite append_cons, IH.
Qed.

Lemma append_assoc (s t u : string) : (s +:+ t) +:+ u = s +:+ (t +:+ u).
Proof.
  induction s as [|c s IH]; [done|]. by rewrite !append_cons, IH.
Qed.

Lemma length_append (s t : string) :
  String.length (s +:+ t) = String.length s + String.length t.
Proof.
  induction s as [|c s IH]; [done|]. rewrite append_cons; simpl. by rewrite IH.
Qed.

Lemma get_append_length (p s : string) :
  String.get (String.length p) (p +:+ s) = String.get 0 s.
Proof.
  induction p as [|c p IH]; [done|]. rewrite append_cons; simpl. exact IH.
Qed.

Lemma append_snoc (p : string) (x : ascii) (s : string) :
  p +:+ String x s = (p +:+ String x EmptyString) +:+ s.
Proof. by rewrite append_assoc. Qed.

Lemma substring_lcp (a b : string) :
  String.substring 0 (String.length (lcp a b)) a = lcp a b.
Proof.
  revert b; induction a as [|x a IH]; intros [|y b]; simpl; try done.
  destruct (Ascii.eqb x y); simpl; [by rewrite IH | done].
Qed.

(** ** The loop of [commonPrefix] *)

(** After the common part [p] has been passed, the loop advances by the
    length of the common prefix of the two remainders. *)
Lemma commonPrefix_loop_spec (fuel : nat) :
  forall p a b : string,
    String.length a <= fuel ->
    commonPrefix_loop fuel (p +:+ a) (p +:+ b) (String.length p)
    = String.length p + String.length (lcp a b).
Proof.
  induction fuel as [|fuel IH]; intros p a b Hfuel.
  - destruct a; simpl in *; [lia | lia].
  - simpl. rewrite !length_append, !get_append_length.
    destruct a as [|x a]; simpl.
    { replace (String.length p <? String.length p + 0) with false
        by (symmetry; apply Nat.ltb_ge; lia).
      simpl; lia. }
    destruct b as [|y b]; simpl.
    { replace (String.length p <? String.length p + 0) with false
        by (symmetry; apply Nat.ltb_ge; lia).
      rewrite andb_false_r; lia. }
    replace (String.length p <? String.length p + S (String.length a))
      with true by (symmetry; apply Nat.ltb_lt; lia).
    replace (String.length p <? String.length p + S (String.length b))
      with true by (symmetry; apply Nat.ltb_lt; lia).
    simpl. destruct (Ascii.eqb_spec x y) as [->|Hxy].
    + rewrite bool_decide_eq_false_2 by (intros H; by apply H).
      rewrite (append_snoc p y a), (append_snoc p y b).
      replace (S (String.length p))
        with (String.length (p +:+ String y EmptyString))
        by (rewrite length_append; simpl; lia).
      rewrite IH by (simpl in Hfuel; lia).
      rewrite length_append; simpl; lia.
    + rewrite bool_decide_eq_true_2 by congruence.
      simpl; lia.
Qed.

(** The function of the source computes the longest common leading
    substring. *)
Lemma commonPrefix_lcp (a b : string) : commonPrefix a b = lcp a b.
Proof.
  unfold commonPrefix, JsString.slice.
  pose proof (commonPrefix_loop_spec (String.length a) EmptyString a b) as H.
  rewrite !append_nil_l in H. simpl in H. rewrite H by lia.
  rewrite Nat.sub_0_r. apply substring_lcp.
Qed.

Lemma lcp_comm (a b : string) : lcp a b = lcp b a.
Proof.
  revert b; induction a as [|x a IH]; intros [|y b]; simpl; try done.
  rewrite (Ascii.eqb_sym y x).
  destruct (Ascii.eqb_spec x y) as [->|]; [by rewrite IH | done].
Qed.

Lemma lcp_assoc (a b c : string) : lcp (lcp a b) c = lcp a (lcp b c).
Proof.
  revert b c; induction a as [|x a IH]; intros [|y b] [|z c]; simpl; try done.
  - by destruct (Ascii.eqb x y).
  - destruct (Ascii.eqb_spec x y) as [->|Hxy];
      destruct (Ascii.eqb_spec y z) as [->|Hyz]; simpl;
      rewrite ?Ascii.eqb_refl; try done.
    + by rewrite IH.
    + by destruct (Ascii.eqb_spec y z).
    + by destruct (Ascii.eqb_spec x z); [subst|].
Qed.

Lemma lcp_idem (a : string) : lcp a a = a.
Proof.
  induction a as [|x a IH]; simpl; [done|].
  by rewrite Ascii.eqb_refl, IH.
Qed.

Lemma lcp_prefix (a b : string) : exists rest, a = lcp a b +:+ rest.
Proof.
  revert b; induction a as [|x a IH]; intros b.
  - by exists EmptyString.
  - destruct b as [|y b]; simpl; [by eexists|].
    destruct (Ascii.eqb x y); [|by eexists].
    destruct (IH b) as [rest Hrest]. exists rest.
    by rewrite append_cons, <- Hrest.
Qed.

Lemma updatePrefix_swap (acc : option string) (x y : string) :
  updatePrefix (updatePrefix acc x) y = updatePrefix (updatePrefix acc y) x.
Proof.
  unfold updatePrefix. destruct acc as [a|]; simpl; f_equal;
    rewrite !commonPrefix_lcp.
  - rewrite !lcp_assoc. f_equal. apply lcp_comm.
  - rewrite !lcp_idem. apply lcp_comm.
Qed.

Lemma fold_left_swap_Permutation {A B : Type} (f : A -> B -> A) :
  (forall a x y, f (f a x) y = f (f a y) x) ->
  forall l l' : list B, Permutation l l' ->
  forall a, fold_left f l a = fold_left f l' a.
Proof.
  intros Hswap l l' Hperm.
  induction Hperm as [|x l l' _ IH|x y l|l l' l'' _ IH1 _ IH2]; intros a; simpl.
  - done.
  - apply IH.
  - by rewrite Hswap.
  - by rewrite IH1, IH2.
Qed.

(** The accumulated prefix does not depend on the order in which the
    repositories report their remote URL. *)
Lemma reducePrefix_Permutation (l l' : list string) :
  Permutation l l' -> reducePrefix l = reducePrefix l'.
Proof.
  intros H. unfold reducePrefix.
  by apply fold_left_swap_Permutation; [apply updatePrefix_swap|].
Qed.

Lemma lcp_firstChar (a b : string) :
  firstChar a <> firstChar b -> lcp a b = EmptyString.
Proof.
  destruct a as [|x a], b as [|y b]; simpl; try done.
  intros H. destruct (Ascii.eqb_spec x y) as [->|]; [by destruct H | done].
Qed.

Lemma isPrefix_refl (s : string) : isPrefix s s.
Proof. exists EmptyString. by rewrite append_empty_r. Qed.

Lemma isPrefix_trans (a b c : string) :
  isPrefix a b -> isPrefix b c -> isPrefix a c.
Proof. intros [r ->] [r' ->]. exists (r +:+ r'). by rewrite append_assoc. Qed.

Lemma isPrefix_antisym (a b : string) : isPrefix a b -> isPrefix b a -> a = b.
Proof.
  intros [r ->] [r' H].
  assert (Hlen : String.length a
                 = String.length ((a +:+ r) +:+ r')) by (by rewrite <- H).
  rewrite !length_append in Hlen.
  destruct r; [by rewrite append_empty_r | simpl in Hlen; lia].
Qed.

(** A common leading substring of two strings is one of their longest
    common prefix. *)
Lemma lcp_greatest (q a b : string) :
  isPrefix q a -> isPrefix q b -> isPrefix q (lcp a b).
Proof.
  intros [r1 ->] [r2 ->]. induction q as [|c q IH].
  - rewrite !append_nil_l. by eexists.
  - rewrite !append_cons. simpl. rewrite Ascii.eqb_refl.
    destruct IH as [rest ->]. exists rest. by rewrite append_cons.
Qed.

Lemma fold_updatePrefix_greatest (urls : list string) :
  forall (acc : option string) (p q : string),
    fold_left updatePrefix urls acc = Some p ->
    (forall a, acc = Some a -> isPrefix q a) ->
    (forall url, In url urls -> isPrefix q url) ->
    isPrefix q p.
Proof.
  induction urls as [|url urls IH]; intros acc p q.
  - simpl. intros -> Hacc _. by apply Hacc.
  - cbn [fold_left]. intros H Hacc Hurls.
    apply (IH _ _ _ H); [|intros u Hu; apply Hurls; by right].
    intros a [= <-]. rewrite commonPrefix_lcp.
    apply lcp_greatest; [|apply Hurls; by left].
    destruct acc as [a|]; simpl; [by apply Hacc | apply Hurls; by left].
Qed.

Lemma fold_updatePrefix_lower (urls : list string) :
  forall (acc : option string) (p : string),
    fold_left updatePrefix urls acc = Some p ->
    (forall a, acc = Some a -> isPrefix p a)
    /\ (forall url, In url urls -> isPrefix p url).
Proof.
  induction urls as [|url urls IH]; intros acc p.
  - simpl. intros ->. split; [|done]. intros a [= ->]. apply isPrefix_refl.
  - cbn [fold_left]. intros H. apply IH in H. destruct H as [Hacc Hurls].
    specialize (Hacc _ eq_refl). rewrite commonPrefix_lcp in Hacc.
    split.
    + intros a ->. eapply isPrefix_trans; [exact Hacc|]. apply lcp_prefix.
    + intros u [<-|Hu]; [|by apply Hurls].
      eapply isPrefix_trans; [exact Hacc|].
      rewrite lcp_comm. apply lcp_prefix.
Qed.

Lemma reducePrefix_None (urls : list string) :
  reducePrefix urls = None <-> urls = [].
Proof.
  split; [|by intros ->]. unfold reducePrefix.
  destruct urls as [|url urls]; [done|]. cbn [fold_left].
  unfold updatePrefix at 2. generalize (commonPrefix (default url None) url).
  intros a H. exfalso. revert a H.
  induction urls as [|u urls IH]; intros a H; [done|].
  cbn [fold_left] in H. unfold updatePrefix at 2 in H. by apply IH in H.
Qed.

(** The reduction only depends on the set of the strings. *)
Lemma reducePrefix_same_elements (l l' : list string) :
  (forall x, In x l <-> In x l') -> reducePrefix l = reducePrefix l'.
Proof.
  intros Hsame.
  destruct (reducePrefix l) as [p|] eqn:E, (reducePrefix l') as [p'|] eqn:E'.
  - f_equal. unfold reducePrefix in E, E'.
    destruct (fold_updatePrefix_lower _ _ _ E) as [_ Hp].
    destruct (fold_updatePrefix_lower _ _ _ E') as [_ Hp'].
    apply isPrefix_antisym.
    + apply (fold_updatePrefix_greatest _ _ _ _ E'); [done|].
      intros u Hu. by apply Hp, Hsame.
    + apply (fold_updatePrefix_greatest _ _ _ _ E); [done|].
      intros u Hu. by apply Hp', Hsame.
  - apply reducePrefix_None in E'. subst l'.
    destruct l as [|x l]; [done|]. by destruct (proj1 (Hsame x) (or_introl eq_refl)).
  - apply reducePrefix_None in E. subst l.
    destruct l' as [|x l']; [done|].
    by destruct (proj2 (Hsame x) (or_introl eq_refl)).
  - done.
Qed.

(** C5: the pairwise [commonPrefix] is associative, commutative and
    idempotent; the reduction of a single string is that string; two
    strings whose first characters differ have the empty string as common
    prefix; and the reduction over a list of strings gives the same result
    for every order of the list, and for every list with the same
    elements. *)
Theorem commonPrefix_semilattice (a b c : string) (l l' : list string) :
  commonPrefix (commonPrefix a b) c = commonPrefix a (commonPrefix b c)
  /\ commonPrefix a b = commonPrefix b a
  /\ commonPrefix a a = a
  /\ reducePrefix [a] = Some a
  /\ (firstChar a <> firstChar b -> commonPrefix a b = EmptyString)
  /\ (Permutation l l' -> reducePrefix l = reducePrefix l')
  /\ ((forall x, In x l <-> In x l') -> reducePrefix l = reducePrefix l').
Proof.
  repeat split.
  - rewrite !commonPrefix_lcp. apply lcp_assoc.
  - rewrite !commonPrefix_lcp. apply lcp_comm.
  - rewrite commonPrefix_lcp. apply lcp_idem.
  - unfold reducePrefix, updatePrefix; simpl.
    by rewrite commonPrefix_lcp, lcp_idem.
  - rewrite commonPrefix_lcp. apply lcp_firstChar.
  - apply reducePrefix_Permutation.
  - apply reducePrefix_same_elements.
Qed.

Lemma commonPrefix_semilattice_witness :
  commonPrefix "git@a" "ssh://b" = EmptyString
  /\ reducePrefix ["ab/x"; "ab/y"; "ac"] = reducePrefix ["ac"; "ab/y"; "ab/x"].
Proof.
  destruct (commonPrefix_semilattice "git@a" "ssh://b" EmptyString
              ["ab/x"; "ab/y"; "ac"] ["ac"; "ab/y"; "ab/x"])
    as (_ & _ & _ & _ & Hfirst & Hperm & _).
  split.
  - apply Hfirst. vm_compute. discriminate.
  - apply Hperm.
    apply perm_trans with (l' := ["ab/y"; "ab/x"; "ac"]).
    + apply perm_swap.
    + apply perm_trans with (l' := ["ab/y"; "ac"; "ab/x"]).
      * apply perm_skip, perm_swap.
      * apply perm_swap.
Defined.

(** ** The recommended action *)

Lemma action_decision (s : RepositoryStatus) : action s = decision (observe s).
Proof.
  unfold action, decision, rules, firstMatch, observe; simpl.
  destruct (local s); [done|].
  destruct (gt0 (ahead s)), (gt0 (behind s)); done.
Qed.

Lemma action_relevant (s1 s2 : RepositoryStatus) :
  (forall f, In f (relevant (action s1)) ->
             agreeOn f (observe s1) (observe s2)) ->
  action s2 = action s1.
Proof.
  intros H.
  assert (Hl : In HasLocalChanges (relevant (action s1)))
    by (destruct (action s1); simpl; auto).
  apply H in Hl; simpl in Hl.
  unfold action in *. rewrite <- Hl.
  destruct (local s1); [done|].
  assert (Hb : behind s1 = behind s2 /\ ahead s1 = ahead s2).
  { split.
    - apply (H UpstreamBehind).
      destruct (gt0 (ahead s1) && gt0 (behind s1)), (gt0 (behind s1)),
        (gt0 (ahead s1)), (gt0 (behindDefault s1)), (gt0 (aheadDefault s1));
        simpl; auto.
    - apply (H UpstreamAhead).
      destruct (gt0 (ahead s1) && gt0 (behind s1)), (gt0 (behind s1)),
        (gt0 (ahead s1)), (gt0 (behindDefault s1)), (gt0 (aheadDefault s1));
        simpl; auto. }
  destruct Hb as [Hb Ha]. rewrite <- Hb, <- Ha.
  destruct (gt0 (ahead s1) && gt0 (behind s1)); [done|].
  destruct (gt0 (behind s1)); [done|].
  destruct (gt0 (ahead s1)); [done|].
  assert (Hd : behindDefault s1 = behindDefault s2).
  { apply (H DefaultBehind).
    destruct (gt0 (behindDefault s1)), (gt0 (aheadDefault s1)); simpl; auto 6. }
  rewrite <- Hd.
  destruct (gt0 (behindDefault s1)); [done|].
  assert (He : aheadDefault s1 = aheadDefault s2).
  { apply (H DefaultAhead).
    destruct (gt0 (aheadDefault s1)); simpl; auto 6. }
  by rewrite <- He.
Qed.

Lemma action_commit_iff (s : RepositoryStatus) :
  action s = commit <-> local s = true.
Proof.
  unfold action. destruct (local s); [done|].
  destruct (gt0 (ahead s)), (gt0 (behind s)), (gt0 (behindDefault s)),
    (gt0 (aheadDefault s)); done.
Qed.

(** C1: the recommended action is a function of the five observations
    (local changes, behind and ahead of upstream, behind and ahead of the
    default branch): it is the action of the first rule that matches, in
    the order commit, resolve, pull, push, merge, pr, and [ok] when none
    does; two states with the same observations get the same action, and
    so do two states that agree on the fields read up to the first
    matching rule, whatever the other fields hold. *)
Theorem action_first_matching_rule (s1 s2 : RepositoryStatus) :
  action s1 = decision (observe s1)
  /\ (observe s1 = observe s2 -> action s1 = action s2)
  /\ ((forall f, In f (relevant (action s1)) ->
                 agreeOn f (observe s1) (observe s2)) ->
      action s2 = action s1)
  /\ (local s1 = true -> action s1 = commit)
  /\ (local s1 = false -> gt0 (ahead s1) = true -> gt0 (behind s1) = true ->
      action s1 = resolve)
  /\ (local s1 = false -> gt0 (behind s1) = true -> gt0 (ahead s1) = false ->
      action s1 = pull)
  /\ (local s1 = false -> gt0 (ahead s1) = true -> gt0 (behind s1) = false ->
      action s1 = push)
  /\ (local s1 = false -> gt0 (ahead s1) = false -> gt0 (behind s1) = false ->
      gt0 (behindDefault s1) = true -> action s1 = merge)
  /\ (local s1 = false -> gt0 (ahead s1) = false -> gt0 (behind s1) = false ->
      gt0 (behindDefault s1) = false -> gt0 (aheadDefault s1) = true ->
      action s1 = pr)
  /\ (local s1 = false -> gt0 (ahead s1) = false -> gt0 (behind s1) = false ->
      gt0 (behindDefault s1) = false -> gt0 (aheadDefault s1) = false ->
      action s1 = ok).
Proof.
  split; [apply action_decision|]. split.
  { intros H. by rewrite !action_decision, H. }
  split; [apply action_relevant|].
  unfold action. repeat split; intros; repeat match goal with
    | H : _ = _ |- _ => rewrite H; clear H
    end; reflexivity.
Qed.

Lemma action_first_matching_rule_witness :
  let s1 := mkStatus "a" ∅ false 0 0 0 "main" "git@host:org/a.git" FetchOk
              (Num 0) (Str Bang) "origin/main" (Num 2) (Num 0) in
  let s2 := mkStatus "b" ∅ false 0 0 0 "main" "git@host:org/b.git" FetchFailed
              (Num 0) (Str Bang) "origin/main" (Num 2) (Num 7) in
  action s1 = merge /\ action s2 = merge.
Proof.
  intros s1 s2.
  destruct (action_first_matching_rule s1 s2) as (_ & _ & H & _).
  split; [reflexivity|].
  rewrite H; [reflexivity|].
  intros f Hf. vm_compute in Hf.
  destruct Hf as [<-|[<-|[<-|[<-|[]]]]]; reflexivity.
Defined.

(** ** The status of one repository *)

Section Collect.

Context (execFile : string -> list string -> string -> Promise Output).
Context (term : Terminal).

(** What a successful [collect] has bound. *)
Lemma collect_resolved (name cwd : string) (w w' : World)
    (s : RepositoryStatus) :
  collect execFile name cwd w = (Resolved s, w') ->
  exists out,
    execFile "git" ["status"; "-z"; "--porcelain=v1"] cwd = Resolved out
    /\ repoName s = name
    /\ local s = (0 <? size (tally (stdout out)))
    /\ newCount s = fst (AutoMap.get 0%Z "??" (tally (stdout out)))
    /\ modifiedCount s
       = fst (AutoMap.get 0%Z " M"
           (snd (AutoMap.get 0%Z "??" (tally (stdout out)))))
    /\ deletedCount s
       = fst (AutoMap.get 0%Z " D"
           (snd (AutoMap.get 0%Z " M"
              (snd (AutoMap.get 0%Z "??" (tally (stdout out)))))))
    /\ repo s
       = JsString.trim
           (catch
              (Promise.map stdout
                 (execFile "git" ["config"; "--get"; "remote.origin.url"] cwd))
              errStdout)
    /\ fileStatusCount s
       = snd (AutoMap.get 0%Z " D"
           (snd (AutoMap.get 0%Z " M"
              (snd (AutoMap.get 0%Z "??" (tally (stdout out)))))))
    /\ branch s = catch (getBranchName execFile cwd) (fun _ => EmptyString)
    /\ originDefault s
       = catch (getRemoteDefault execFile cwd) (fun _ => EmptyString)
    /\ behind s = (if JsString.truthy (branch s)
                   then gitLogCount execFile cwd "HEAD" "@{u}" else Str Blank)
    /\ ahead s = (if JsString.truthy (branch s)
                  then gitLogCount execFile cwd "@{u}" "HEAD" else Str Blank)
    /\ behindDefault s
       = (if JsString.truthy (originDefault s)
          then gitLogCount execFile cwd "HEAD" (originDefault s)
          else Str Question)
    /\ aheadDefault s
       = (if JsString.truthy (originDefault s)
          then gitLogCount execFile cwd (originDefault s) "HEAD"
          else Str Question)
    /\ w' = setPrefix (updatePrefix (commonRepositoryPrefix w) (repo s)) w.
Proof.
  unfold collect.
  destruct (execFile "git" ["status"; "-z"; "--porcelain=v1"] cwd)
    as [out|e]; [|discriminate].
  destruct (AutoMap.get 0%Z "??" (tally (stdout out))) as [n1 m1] eqn:E1.
  destruct (AutoMap.get 0%Z " M" m1) as [n2 m2] eqn:E2.
  destruct (AutoMap.get 0%Z " D" m2) as [n3 m3] eqn:E3.
  intros H. injection H as <- <-. exists out.
  cbn [fst snd repoName local newCount modifiedCount deletedCount
       fileStatusCount branch originDefault behind ahead behindDefault
       aheadDefault repo].
  rewrite E1. cbn [fst snd]. rewrite E2. cbn [snd]. rewrite E3.
  repeat split; reflexivity.
Qed.

(** *** The tally *)

Lemma countKey_lookup (m : gmap string Z) (key k : string) :
  countKey m key !! k
  = if String.eqb key k then Some (default 0%Z (m !! key) + 1)%Z else m !! k.
Proof.
  unfold countKey, AutoMap.get, AutoMap.set.
  destruct (String.eqb_spec key k) as [->|Hne].
  - destruct (m !! k) as [v|] eqn:E; simpl; by rewrite lookup_insert_eq.
  - destruct (m !! key) as [v|] eqn:E; simpl;
      rewrite ?lookup_insert_ne by done; done.
Qed.

Lemma occurrences_cons (k : string) (e : string * string)
    (entries : list (string * string)) :
  occurrences k (e :: entries)
  = ((if String.eqb (fst e) k then 1 else 0) + occurrences k entries)%Z.
Proof.
  unfold occurrences; simpl.
  destruct (String.eqb (fst e) k); simpl length; lia.
Qed.

Lemma occurrences_nonneg (key : string) (entries : list (string * string)) :
  (0 <= occurrences key entries)%Z.
Proof. unfold occurrences; lia. Qed.

Lemma fold_countKey_lookup (entries : list (string * string)) :
  forall (m : gmap string Z) (k : string),
    fold_left (fun m e => countKey m (fst e)) entries m !! k
    = if (occurrences k entries =? 0)%Z then m !! k
      else Some (default 0%Z (m !! k) + occurrences k entries)%Z.
Proof.
  induction entries as [|e entries IH]; intros m k; [done|].
  cbn [fold_left]. rewrite IH, countKey_lookup, occurrences_cons.
  pose proof (occurrences_nonneg k entries) as Hnn.
  destruct (String.eqb_spec (fst e) k) as [->|Hne].
  - replace (1 + occurrences k entries =? 0)%Z with false
      by (symmetry; apply Z.eqb_neq; lia).
    destruct (Z.eqb_spec (occurrences k entries) 0) as [E|E].
    + rewrite E. f_equal; lia.
    + simpl. f_equal; lia.
  - rewrite Z.add_0_l. done.
Qed.

(** A status code is in the tally exactly when some entry carries it, and
    its count is the number of those entries. *)
Lemma tally_lookup (out key : string) :
  tally out !! key
  = if (occurrences key (statusEntries out) =? 0)%Z then None
    else Some (occurrences key (statusEntries out)).
Proof.
  unfold tally. rewrite fold_countKey_lookup, lookup_empty. simpl.
  by destruct (occurrences key (statusEntries out) =? 0)%Z.
Qed.

Lemma tally_positive (out key : string) (n : Z) :
  tally out !! key = Some n -> (1 <= n)%Z.
Proof.
  rewrite tally_lookup.
  destruct (Z.eqb_spec (occurrences key (statusEntries out)) 0); [done|].
  intros [= <-]. pose proof (occurrences_nonneg key (statusEntries out)). lia.
Qed.

Lemma tally_empty_iff (out : string) :
  tally out = ∅ <-> statusEntries out = [].
Proof.
  split.
  - intros H. destruct (statusEntries out) as [|[key path] entries] eqn:E;
      [done|].
    assert (Hk : tally out !! key = None) by (by rewrite H, lookup_empty).
    rewrite tally_lookup, E in Hk. unfold occurrences in Hk. simpl in Hk.
    rewrite String.eqb_refl in Hk. simpl in Hk. done.
  - intros H. apply map_eq; intros k.
    rewrite tally_lookup, H, lookup_empty. done.
Qed.

Lemma AutoMap_get_nonneg (key : string) (m : gmap string Z) :
  (forall k n, m !! k = Some n -> (0 <= n)%Z) ->
  (0 <= fst (AutoMap.get 0%Z key m))%Z
  /\ (forall k n, snd (AutoMap.get 0%Z key m) !! k = Some n -> (0 <= n)%Z).
Proof.
  intros H. unfold AutoMap.get.
  destruct (m !! key) as [v|] eqn:E; simpl.
  - split; [by apply (H key) | done].
  - split; [lia|]. intros k n.
    destruct (decide (key = k)) as [->|Hne].
    + rewrite lookup_insert_eq. intros [= <-]. lia.
    + rewrite lookup_insert_ne by done. apply H.
Qed.

Lemma split_length (sep : ascii) (s : string) :
  1 <= length (JsString.split sep s).
Proof.
  induction s as [|c s IH]; simpl; [lia|].
  destruct (Ascii.eqb c sep); simpl; [lia|].
  destruct (JsString.split sep s); simpl in *; lia.
Qed.

(** A log count is the marker ["!"] or a number that is not negative. *)
Lemma gitLogCount_value (cwd from to : string) :
  match execFile "git" ["log"; "--oneline"; from +:+ ".." +:+ to] cwd with
  | Resolved _ =>
      exists n, gitLogCount execFile cwd from to = Num n /\ (0 <= n)%Z
  | Rejected _ => gitLogCount execFile cwd from to = Str Bang
  end.
Proof.
  unfold gitLogCount.
  destruct (execFile "git" ["log"; "--oneline"; from +:+ ".." +:+ to] cwd)
    as [out|e]; [|done].
  eexists; split; [done|].
  pose proof (split_length "010" (stdout out)). lia.
Qed.

Lemma gt0_unknown (v : JsValue) : unknown v -> gt0 v = false.
Proof. intros [m ->]. by destruct m. Qed.

Lemma gt0_asZero (v : JsValue) : gt0 (asZero v) = gt0 v.
Proof. destruct v as [n|m]; [done | by destruct m]. Qed.

Lemma action_unknownsAsZero (s : RepositoryStatus) :
  action (unknownsAsZero s) = action s.
Proof. unfold action, unknownsAsZero; simpl. by rewrite !gt0_asZero. Qed.

Lemma cellText_unknown (v : JsValue) :
  unknown v -> cellText v <> cellText (Num 0).
Proof. intros [m ->]. by destruct m. Qed.

(** C3: an unknown divergence value (no branch name, no default branch,
    or a log query that threw) is one of the marker strings; such a value
    never satisfies [> 0], so every rule that tests it falls through and
    the action is the one chosen with zero in its place; and the cell it
    fills holds a marker string, not the number zero, whose text differs
    from the text of zero. *)
Theorem unknown_divergence (name cwd : string) (w w' : World)
    (s : RepositoryStatus) :
  collect execFile name cwd w = (Resolved s, w') ->
  (branch s = EmptyString -> unknown (behind s) /\ unknown (ahead s))
  /\ (originDefault s = EmptyString ->
      unknown (behindDefault s) /\ unknown (aheadDefault s))
  /\ (forall e, execFile "git" ["log"; "--oneline"; "HEAD" +:+ ".." +:+ "@{u}"]
                  cwd = Rejected e -> unknown (behind s))
  /\ (forall e, execFile "git" ["log"; "--oneline"; "@{u}" +:+ ".." +:+ "HEAD"]
                  cwd = Rejected e -> unknown (ahead s))
  /\ (forall e, execFile "git"
                  ["log"; "--oneline"; "HEAD" +:+ ".." +:+ originDefault s]
                  cwd = Rejected e -> unknown (behindDefault s))
  /\ (forall e, execFile "git"
                  ["log"; "--oneline"; originDefault s +:+ ".." +:+ "HEAD"]
                  cwd = Rejected e -> unknown (aheadDefault s))
  /\ (forall v, unknown v ->
                gt0 v = false /\ v <> Num 0
                /\ cellText v <> cellText (Num 0))
  /\ action (unknownsAsZero s) = action s
  /\ rowBehind (fst (rowOf term s)) = behind s
  /\ rowAhead (fst (rowOf term s)) = ahead s
  /\ rowBehindDefault (fst (rowOf term s)) = behindDefault s
  /\ rowAheadDefault (fst (rowOf term s)) = aheadDefault s.
Proof.
  intros H. apply collect_resolved in H.
  destruct H as (out & _ & _ & _ & _ & _ & _ & _ & _ & _ & _ & Hb & Ha & Hbd
                 & Had & _).
  repeat split.
  - rewrite Hb, H. by eexists.
  - rewrite Ha, H. by eexists.
  - rewrite Hbd, H. by eexists.
  - rewrite Had, H. by eexists.
  - intros e He. rewrite Hb. destruct (JsString.truthy (branch s)); [|by eexists].
    pose proof (gitLogCount_value cwd "HEAD" "@{u}") as Hv.
    rewrite He in Hv. rewrite Hv. by eexists.
  - intros e He. rewrite Ha. destruct (JsString.truthy (branch s)); [|by eexists].
    pose proof (gitLogCount_value cwd "@{u}" "HEAD") as Hv.
    rewrite He in Hv. rewrite Hv. by eexists.
  - intros e He. rewrite Hbd.
    destruct (JsString.truthy (originDefault s)); [|by eexists].
    pose proof (gitLogCount_value cwd "HEAD" (originDefault s)) as Hv.
    rewrite He in Hv. rewrite Hv. by eexists.
  - intros e He. rewrite Had.
    destruct (JsString.truthy (originDefault s)); [|by eexists].
    pose proof (gitLogCount_value cwd (originDefault s) "HEAD") as Hv.
    rewrite He in Hv. rewrite Hv. by eexists.
  - by apply gt0_unknown.
  - destruct H as [m ->]. done.
  - by apply cellText_unknown.
  - apply action_unknownsAsZero.
Qed.

(** C7: every count of the tally built from the porcelain output is a
    non-negative integer (also after the three default reads); the local
    changes predicate holds exactly when that tally is not empty, so an
    empty tally gives [false]; and a repository whose only status entry
    is one untracked file has the tally [??:1], has local changes and is
    classified [commit].  The count of a status code is the number of
    entries that carry it, and a code without entry is absent. *)
Theorem tally_local_changes (name cwd : string) (w w' : World)
    (s : RepositoryStatus) :
  collect execFile name cwd w = (Resolved s, w') ->
  exists out,
    execFile "git" ["status"; "-z"; "--porcelain=v1"] cwd = Resolved out
    /\ (forall key n, tally (stdout out) !! key = Some n -> (0 <= n)%Z)
    /\ (forall key n, fileStatusCount s !! key = Some n -> (0 <= n)%Z)
    /\ (0 <= newCount s)%Z /\ (0 <= modifiedCount s)%Z
    /\ (0 <= deletedCount s)%Z
    /\ (forall key,
          tally (stdout out) !! key
          = if (occurrences key (statusEntries (stdout out)) =? 0)%Z then None
            else Some (occurrences key (statusEntries (stdout out))))
    /\ (tally (stdout out) = ∅ <-> statusEntries (stdout out) = [])
    /\ (local s = true <-> tally (stdout out) <> ∅)
    /\ (tally (stdout out) = ∅ -> local s = false)
    /\ (forall path, statusEntries (stdout out) = [("??", path)] ->
          tally (stdout out) = {["??" := 1%Z]}
          /\ local s = true /\ action s = commit).
Proof.
  intros H. apply collect_resolved in H.
  destruct H as (out & Hout & _ & Hlocal & Hnew & Hmod & Hdel & _ & Hfsc & _).
  exists out. split; [done|].
  assert (H0 : forall key n, tally (stdout out) !! key = Some n -> (0 <= n)%Z).
  { intros key n Hk. apply tally_positive in Hk. lia. }
  destruct (AutoMap_get_nonneg "??" _ H0) as [Hn1 H1].
  destruct (AutoMap_get_nonneg " M" _ H1) as [Hn2 H2].
  destruct (AutoMap_get_nonneg " D" _ H2) as [Hn3 H3].
  assert (Hiff : local s = true <-> tally (stdout out) <> ∅).
  { rewrite Hlocal, Nat.ltb_lt, <- map_size_non_empty_iff. lia. }
  split; [done|]. split; [by rewrite Hfsc|].
  split; [by rewrite Hnew|]. split; [by rewrite Hmod|].
  split; [by rewrite Hdel|].
  split; [intros key; apply tally_lookup|].
  split; [apply tally_empty_iff|]. split; [done|]. split.
  - intros He. destruct (local s); [|done]. by destruct Hiff as [Hiff _], Hiff.
  - intros path Hpath.
    assert (Ht : tally (stdout out) = {["??" := 1%Z]}).
    { unfold tally. rewrite Hpath. simpl.
      unfold countKey, AutoMap.get, AutoMap.set.
      rewrite lookup_empty. simpl.
      by rewrite insert_insert_eq, insert_empty. }
    split; [done|].
    assert (Hl : local s = true).
    { apply Hiff. rewrite Ht. apply insert_non_empty. }
    split; [done|]. unfold action. by rewrite Hl.
Qed.

(** C9: the local changes predicate is the size test of the tally as it
    is before the three reads; the reads create the keys [??], [ M] and
    [ D] when they are absent, so the map is never empty afterwards; for
    an empty porcelain output the predicate is false and the action is not
    [commit], although the map then holds exactly three entries, all
    zero. *)
Theorem local_captured_before_reads (name cwd : string) (w w' : World)
    (s : RepositoryStatus) :
  collect execFile name cwd w = (Resolved s, w') ->
  exists out,
    execFile "git" ["status"; "-z"; "--porcelain=v1"] cwd = Resolved out
    /\ local s = (0 <? size (tally (stdout out)))
    /\ (forall key, In key ["??"; " M"; " D"] ->
          fileStatusCount s !! key
          = Some (default 0%Z (tally (stdout out) !! key)))
    /\ fileStatusCount s <> ∅
    /\ (stdout out = EmptyString ->
        local s = false /\ action s <> commit
        /\ newCount s = 0%Z /\ modifiedCount s = 0%Z /\ deletedCount s = 0%Z
        /\ fileStatusCount s
           = <[" D" := 0%Z]> (<[" M" := 0%Z]> (<["??" := 0%Z]> ∅))
        /\ size (fileStatusCount s) = 3).
Proof.
  intros H. apply collect_resolved in H.
  destruct H as (out & Hout & _ & Hlocal & Hnew & Hmod & Hdel & _ & Hfsc & _).
  exists out. split; [done|]. split; [done|].
  assert (Hreads : forall key, In key ["??"; " M"; " D"] ->
            fileStatusCount s !! key
            = Some (default 0%Z (tally (stdout out) !! key))).
  { intros key Hkey. rewrite Hfsc. unfold AutoMap.get.
    generalize (tally (stdout out)); intros m.
    destruct Hkey as [<-|[<-|[<-|[]]]];
      destruct (m !! "??") as [a|] eqn:Ea; simpl;
      rewrite ?lookup_insert_ne by done;
      destruct (m !! " M") as [b|] eqn:Eb; simpl;
      rewrite ?lookup_insert_ne by done;
      rewrite ?lookup_insert_eq;
      destruct (m !! " D") as [c|] eqn:Ec; simpl;
      rewrite ?lookup_insert_ne by done;
      rewrite ?lookup_insert_eq; congruence. }
  split; [done|]. split.
  - intros He. specialize (Hreads "??" (or_introl eq_refl)).
    by rewrite He, lookup_empty in Hreads.
  - intros Hempty.
    assert (Ht : tally (stdout out) = ∅) by (by rewrite Hempty).
    rewrite Ht in *.
    assert (Hl : local s = false) by (by rewrite Hlocal).
    split; [done|]. split; [by rewrite action_commit_iff, Hl|].
    split; [by rewrite Hnew|]. split; [by rewrite Hmod|].
    split; [by rewrite Hdel|]. split; [by rewrite Hfsc|].
    by rewrite Hfsc.
Qed.

End Collect.

(** Runs [collect] on a scripted repository and names the result. *)
Ltac run_collect git path E :=
  let r := fresh "r" in
  pose (r := collect git path path emptyWorld);
  assert (E : collect git path path emptyWorld = r) by reflexivity;
  vm_compute in r; subst r.

Lemma unknown_divergence_witness :
  exists s w',
    collect (scripted (fun _ => noRemoteRepo)) "a" "a" emptyWorld
    = (Resolved s, w')
    /\ unknown (behind s) /\ unknown (behindDefault s)
    /\ gt0 (behind s) = false /\ action s = ok.
Proof.
  run_collect (scripted (fun _ => noRemoteRepo)) "a" E.
  destruct (unknown_divergence _ plainTerminal _ _ _ _ _ E)
    as (_ & Hdefault & Hbehind & _ & _ & _ & Hgt & _).
  eexists _, _. split; [exact E|].
  split; [apply (Hbehind (mkError "Command failed" EmptyString)); reflexivity|].
  split; [apply Hdefault; reflexivity|].
  split; [|reflexivity].
  apply Hgt. apply (Hbehind (mkError "Command failed" EmptyString)); reflexivity.
Defined.

Lemma tally_local_changes_witness :
  exists s w',
    collect (scripted (fun _ => untrackedRepo "git@host:org/a.git")) "a" "a"
      emptyWorld = (Resolved s, w')
    /\ local s = true /\ action s = commit /\ newCount s = 1%Z.
Proof.
  run_collect (scripted (fun _ => untrackedRepo "git@host:org/a.git")) "a" E.
  destruct (tally_local_changes _ _ _ _ _ _ E)
    as (out & Hout & _ & _ & _ & _ & _ & _ & _ & _ & _ & Hone).
  vm_compute in Hout. injection Hout as <-.
  destruct (Hone "notes.txt" eq_refl) as (_ & Hlocal & Haction).
  eexists _, _. split; [exact E|].
  split; [exact Hlocal|]. split; [exact Haction | reflexivity].
Defined.

Lemma local_captured_before_reads_witness :
  exists s w',
    collect (scripted (fun _ => cleanRepo "git@host:org/a.git")) "a" "a"
      emptyWorld = (Resolved s, w')
    /\ local s = false /\ action s = ok /\ size (fileStatusCount s) = 3.
Proof.
  run_collect (scripted (fun _ => cleanRepo "git@host:org/a.git")) "a" E.
  destruct (local_captured_before_reads _ _ _ _ _ _ E)
    as (out & Hout & _ & _ & _ & Hempty).
  vm_compute in Hout. injection Hout as <-.
  destruct (Hempty eq_refl) as (Hlocal & _ & _ & _ & _ & _ & Hsize).
  eexists _, _. split; [exact E|].
  split; [exact Hlocal|]. split; [reflexivity | exact Hsize].
Defined.

(** ** The run of [status] *)

Section Status.

Context (execFile : string -> list string -> string -> Promise Output).
Context (term : Terminal).
Context (root : Dirent).

(** The row of a repository does not depend on the state of the run. *)
Lemma collect_fst (name cwd : string) (w : World) :
  fst (collect execFile name cwd w)
  = fst (collect execFile name cwd emptyWorld).
Proof.
  unfold collect.
  destruct (execFile "git" ["status"; "-z"; "--porcelain=v1"] cwd); [|done].
  destruct (AutoMap.get 0%Z "??" _) as [n1 m1].
  destruct (AutoMap.get 0%Z " M" m1) as [n2 m2].
  destruct (AutoMap.get 0%Z " D" m2) as [n3 m3].
  reflexivity.
Qed.

(** A repository that fails leaves the state as it was; one that succeeds
    updates the prefix with its remote URL and nothing else. *)
Lemma statusAction_world (path : string) (w : World) :
  statusAction execFile term path path w
  = match slotOf execFile term path with
    | Some row =>
        (Resolved row,
         setPrefix (updatePrefix (commonRepositoryPrefix w) (rowRepo (fst row)))
           w)
    | None =>
        (match fst (statusAction execFile term path path emptyWorld) with
         | Resolved row => Resolved row
         | Rejected e => Rejected e
         end, w)
    end.
Proof.
  unfold slotOf, statusAction.
  pose proof (collect_fst path path w) as Hfst.
  destruct (collect execFile path path w) as [r w'] eqn:E.
  destruct (collect execFile path path emptyWorld) as [r0 w0] eqn:E0.
  simpl in Hfst. subst r0. simpl.
  destruct r as [s|e]; simpl.
  - apply collect_resolved in E.
    destruct E as (_ & _ & _ & _ & _ & _ & _ & _ & _ & _ & _ & _ & _ & _ & _
                   & ->).
    reflexivity.
  - f_equal. unfold collect in E.
    destruct (execFile "git" ["status"; "-z"; "--porcelain=v1"] path).
    + destruct (AutoMap.get 0%Z "??" _) as [n1 m1].
      destruct (AutoMap.get 0%Z " M" m1) as [n2 m2].
      destruct (AutoMap.get 0%Z " D" m2) as [n3 m3].
      discriminate.
    + by injection E.
Qed.

Lemma omap_cons {A B : Type} (f : A -> option B) (x : A) (l : list A) :
  omap f (x :: l)
  = match f x with Some y => y :: omap f l | None => omap f l end.
Proof. reflexivity. Qed.

Lemma urlsOf_cons (slot : option (Row * string))
    (slots : list (option (Row * string))) :
  urlsOf (slot :: slots)
  = match slot with
    | Some row => rowRepo (fst row) :: urlsOf slots
    | None => urlsOf slots
    end.
Proof. unfold urlsOf. rewrite omap_cons. by destruct slot. Qed.

Lemma slot_cases (path : string) :
  (exists row,
      fst (statusAction execFile term path path emptyWorld) = Resolved row
      /\ slotOf execFile term path = Some row
      /\ errorOf execFile term path = None)
  \/ (exists e,
      fst (statusAction execFile term path path emptyWorld) = Rejected e
      /\ slotOf execFile term path = None
      /\ errorOf execFile term path = Some (PathMessage path (message e))).
Proof.
  unfold slotOf, errorOf.
  destruct (fst (statusAction execFile term path path emptyWorld)) as [row|e];
    [left | right]; eauto.
Qed.

Lemma eachRepo_statusAction (gitDirectories : list string) :
  forall (w w' : World) (slots : list (option (Row * string))),
    eachRepo (statusAction execFile term) gitDirectories w = (slots, w') ->
    slots = List.map (slotOf execFile term) gitDirectories
    /\ commonRepositoryPrefix w'
       = fold_left updatePrefix (urlsOf slots) (commonRepositoryPrefix w)
    /\ errorStream w'
       = errorStream w ++ omap (errorOf execFile term) gitDirectories
    /\ outputStream w' = outputStream w.
Proof.
  induction gitDirectories as [|path rest IH]; intros w w' slots.
  - cbn [eachRepo]. intros [= <- <-]. by rewrite app_nil_r.
  - cbn [eachRepo]. rewrite statusAction_world.
    destruct (slot_cases path) as [(row & E & Hs & He)|(e & E & Hs & He)];
      rewrite Hs; [|rewrite E].
    + destruct (eachRepo (statusAction execFile term) rest _)
        as [slots3 w3] eqn:E3.
      intros [= <- <-]. apply IH in E3.
      destruct E3 as (-> & Hp3 & He3 & Ho3).
      cbn [List.map]. rewrite omap_cons, urlsOf_cons, Hs, He.
      split; [done|]. split; [|by split].
      rewrite Hp3. reflexivity.
    + destruct (eachRepo (statusAction execFile term) rest _)
        as [slots3 w3] eqn:E3.
      intros [= <- <-]. apply IH in E3.
      destruct E3 as (-> & Hp3 & He3 & Ho3).
      cbn [List.map]. rewrite omap_cons, urlsOf_cons, Hs, He.
      split; [done|]. split; [by rewrite Hp3|].
      split; [|done]. rewrite He3. cbn [console_error errorStream].
      by rewrite <- app_assoc.
Qed.

Lemma flatMapRows_cons (p : option string) (slot : option (Row * string))
    (slots : list (option (Row * string))) :
  flatMapRows term p (slot :: slots)
  = match displayRows term p slot with
    | Resolved shown =>
        Promise.map (app shown) (flatMapRows term p slots)
    | Rejected e => Rejected e
    end.
Proof.
  unfold flatMapRows. cbn [List.map Promise.all].
  destruct (displayRows term p slot) as [shown|e]; [|done].
  by destruct (Promise.all (List.map (displayRows term p) slots)).
Qed.

(** The table rows exist only when every element of [rows] is a row. *)
Lemma flatMapRows_resolved (p : option string)
    (slots : list (option (Row * string))) (shown : list TableRow) :
  flatMapRows term p slots = Resolved shown ->
  exists rows,
    slots = List.map Some rows
    /\ match p with
       | Some q => shown = shownRows term q rows
       | None => rows = [] /\ shown = []
       end.
Proof.
  revert shown. induction slots as [|slot slots IH]; intros shown.
  - intros [= <-]. exists []. by destruct p.
  - rewrite flatMapRows_cons.
    destruct slot as [[r expl]|]; [|done]. destruct p as [q|]; [|done].
    cbn [displayRows].
    destruct (flatMapRows term (Some q) slots) as [shown'|e]; [|done].
    intros [= <-]. destruct (IH shown' eq_refl) as (rows & -> & ->).
    by exists ((r, expl) :: rows).
Qed.

(** One [undefined] element makes the [flatMap] throw. *)
Lemma flatMapRows_undefined (p : option string)
    (slots : list (option (Row * string))) :
  In None slots -> exists e, flatMapRows term p slots = Rejected e.
Proof.
  induction slots as [|slot slots IH]; [done|].
  intros Hin. rewrite flatMapRows_cons.
  destruct (displayRows term p slot) as [shown|e] eqn:E; [|by eexists].
  destruct Hin as [->|Hin]; [done|].
  destruct (IH Hin) as [e ->]. by eexists.
Qed.

Lemma sliceFrom_append (p rest : string) :
  JsString.sliceFrom (p +:+ rest) (String.length p) = rest.
Proof.
  unfold JsString.sliceFrom. rewrite length_append.
  replace (String.length p + String.length rest - String.length p)
    with (String.length rest) by lia.
  induction p as [|c p IH].
  - rewrite append_nil_l. simpl String.length. clear.
    induction rest as [|c rest IH]; [done|]. simpl. by rewrite IH.
  - rewrite append_cons. simpl. exact IH.
Qed.

Lemma append_empty_inv (p rest : string) :
  EmptyString = p +:+ rest -> p = EmptyString.
Proof. by destruct p. Qed.

Lemma urlsOf_Some (rows : list (Row * string)) :
  urlsOf (List.map Some rows) = List.map (fun row => rowRepo (fst row)) rows.
Proof.
  induction rows as [|row rows IH]; [done|].
  cbn [List.map]. by rewrite urlsOf_cons, IH.
Qed.

(** C4, as the code has it: when [status] prints its table, the prefix is
    the pairwise reduction with [commonPrefix] over the remote URLs of all
    repositories, the empty ones included (an empty URL makes the prefix
    empty); every displayed URL is the full URL with that prefix removed;
    for [git@host:org/a.git] and [git@host:org/b.git] the prefix is
    [git@host:org/] and the displayed values are [a.git] and [b.git]. *)
Theorem status_common_prefix (w w1 : World) (v : JsRet) :
  status execFile term root w = (Resolved v, w1) ->
  exists dirs rows,
    findGit "." root = Resolved dirs
    /\ List.map (slotOf execFile term) dirs = List.map Some rows
    /\ commonRepositoryPrefix w1
       = reducePrefix (List.map (fun row => rowRepo (fst row)) rows)
    /\ match commonRepositoryPrefix w1 with
       | Some p =>
           outputStream w1
           = outputStream w
             ++ [Table header (shownRows term p rows); Legend (Some p)]
           /\ (forall row, In row rows ->
                 rowRepo (fst row)
                 = p +:+ JsString.sliceFrom (rowRepo (fst row))
                           (String.length p))
           /\ (In EmptyString (List.map (fun row => rowRepo (fst row)) rows)
               -> p = EmptyString)
       | None =>
           rows = []
           /\ outputStream w1
              = outputStream w ++ [Table header []; Legend None]
       end
    /\ reducePrefix ["git@host:org/a.git"; "git@host:org/b.git"]
       = Some "git@host:org/"
    /\ JsString.sliceFrom "git@host:org/a.git" (String.length "git@host:org/")
       = "a.git"
    /\ JsString.sliceFrom "git@host:org/b.git" (String.length "git@host:org/")
       = "b.git".
Proof.
  unfold status, forEachRepo.
  destruct (findGit "." root) as [dirs|e]; [|done].
  destruct (eachRepo (statusAction execFile term) dirs (setPrefix None w))
    as [slots w2] eqn:E.
  apply eachRepo_statusAction in E. destruct E as (Hslots & Hp & _ & Ho).
  destruct (flatMapRows term (commonRepositoryPrefix w2) slots)
    as [shown|e] eqn:Eshown; [|done].
  intros [= _ <-].
  apply flatMapRows_resolved in Eshown. destruct Eshown as (rows & -> & Hshown).
  exists dirs, rows. split; [done|]. split; [done|].
  rewrite urlsOf_Some in Hp. cbn [setPrefix commonRepositoryPrefix] in Hp.
  cbn [console_log commonRepositoryPrefix outputStream].
  split; [exact Hp|]. split; [|by repeat split].
  cbn [setPrefix outputStream] in Ho. rewrite Ho.
  destruct (commonRepositoryPrefix w2) as [p|].
  - subst shown. rewrite <- app_assoc. split; [done|].
    symmetry in Hp. apply fold_updatePrefix_lower in Hp.
    destruct Hp as [_ Hurls]. split.
    + intros row Hrow.
      destruct (Hurls (rowRepo (fst row))) as [rest Hrest].
      { apply in_map_iff. by exists row. }
      rewrite Hrest at 2. by rewrite sliceFrom_append.
    + intros Hempty. destruct (Hurls _ Hempty) as [rest Hrest].
      by apply append_empty_inv in Hrest.
  - destruct Hshown as [-> ->]. by rewrite <- app_assoc.
Qed.

(** When the status listing of one repository is rejected, its path and
    message reach the error stream, and then [status] itself throws: no
    table is printed for any repository. *)
Lemma status_rejects_when_a_repository_fails (w : World)
    (dirs : list string) (path : string) :
  findGit "." root = Resolved dirs ->
  In path dirs ->
  slotOf execFile term path = None ->
  exists e w',
    status execFile term root w = (Rejected e, w')
    /\ outputStream w' = outputStream w
    /\ (forall line, errorOf execFile term path = Some line ->
                     In line (errorStream w')).
Proof.
  intros Hdirs Hin Hslot. unfold status, forEachRepo. rewrite Hdirs.
  destruct (eachRepo (statusAction execFile term) dirs (setPrefix None w))
    as [slots w2] eqn:E.
  apply eachRepo_statusAction in E. destruct E as (Hslots & _ & He & Ho).
  destruct (flatMapRows_undefined (commonRepositoryPrefix w2) slots)
    as [e Hrej].
  { rewrite Hslots, <- Hslot. apply in_map_iff. by exists path. }
  rewrite Hrej. exists e, w2. split; [done|]. split; [done|].
  intros line Hline. rewrite He. apply in_or_app. right.
  apply list_elem_of_In, list_elem_of_omap. exists path.
  split; [by apply list_elem_of_In | done].
Qed.

End Status.

Lemma status_common_prefix_witness :
  let w1 :=
    snd (status (scripted sameOrganisation) plainTerminal twoRepos emptyWorld)
  in
  exists rows,
    commonRepositoryPrefix w1
    = reducePrefix (List.map (fun row => rowRepo (fst row)) rows)
    /\ commonRepositoryPrefix w1 = Some "git@host:org/"
    /\ outputStream w1
       = [Table header (shownRows plainTerminal "git@host:org/" rows);
          Legend (Some "git@host:org/")]
    /\ List.map (fun row => JsString.sliceFrom (rowRepo (fst row))
                              (String.length "git@host:org/")) rows
       = ["a.git"; "b.git"].
Proof.
  pose (r := status (scripted sameOrganisation) plainTerminal twoRepos
               emptyWorld).
  assert (E : status (scripted sameOrganisation) plainTerminal twoRepos
                emptyWorld = r) by reflexivity.
  vm_compute in r. subst r.
  destruct (status_common_prefix _ _ _ _ _ _ E)
    as (dirs & rows & Hdirs & Hrows & Hprefix & Hshown & _).
  cbn [commonRepositoryPrefix outputStream] in Hprefix, Hshown.
  destruct Hshown as (Hout & _ & _).
  exists rows. cbv zeta. rewrite E. cbn [snd commonRepositoryPrefix outputStream].
  split; [exact Hprefix|]. split; [reflexivity|]. split; [exact Hout|].
  vm_compute in Hdirs. injection Hdirs as <-.
  vm_compute in Hrows.
  destruct rows as [|ra [|rb [|rc rows]]]; try discriminate.
  injection Hrows as <- <-. reflexivity.
Defined.

(** C4, as it is stated, fails: a repository without remote URL empties
    the prefix, where the reduction over the non-empty URLs keeps the URL
    of the other repository; the table shows that URL in full. *)
Lemma empty_url_clears_prefix :
  let w1 :=
    snd (status (scripted oneWithoutRemote) plainTerminal twoRepos emptyWorld)
  in
  commonRepositoryPrefix w1 = Some EmptyString
  /\ prefixOfNonEmpty ["git@host:org/a.git"; EmptyString]
     = Some "git@host:org/a.git"
  /\ commonRepositoryPrefix w1
     <> prefixOfNonEmpty ["git@host:org/a.git"; EmptyString]
  /\ exists ra ea rb eb,
       outputStream w1
       = [Table header [Primary ra; Secondary ea; Primary rb; Secondary eb];
          Legend (Some EmptyString)]
       /\ rowRepo ra = "git@host:org/a.git" /\ rowRepo rb = EmptyString.
Proof.
  vm_compute. repeat split; try discriminate.
  do 4 eexists. repeat split; reflexivity.
Qed.

(** C2 on a concrete run: the status listing of [b] is rejected.  The
    path and the message are logged, then [status] throws while it
    destructures the missing row: nothing is printed for [a] either, and
    the process exits with code 1. *)
Theorem status_aborts_after_failed_repository :
  status (scripted oneBroken) plainTerminal twoRepos emptyWorld
  = (Rejected (typeError "undefined is not iterable"),
     mkWorld (Some "git@host:org/a.git")
       [PathMessage "b" "EACCES: permission denied"] [])
  /\ main (scripted oneBroken) plainTerminal twoRepos noPassthrough ["status"]
       emptyWorld
     = (mkWorld (Some "git@host:org/a.git")
          [PathMessage "b" "EACCES: permission denied";
           Uncaught (typeError "undefined is not iterable")] [],
        NumberV 1).
Proof. split; vm_compute; reflexivity. Qed.

(** ** The dispatcher *)

Section Dispatch.

Context (execFile : string -> list string -> string -> Promise Output).
Context (term : Terminal).
Context (root : Dirent).
Context (passthrough : Command -> list string -> World -> Promise unit * World).

(** A name that is neither a command nor a property of
    [Object.prototype] selects [help]; so does an absent name. *)
Lemma selected_fallback (key : string) :
  ownProperty key = None ->
  ~ In key objectPrototype ->
  selected (Some key) = Own Help /\ selected None = Own Help.
Proof.
  intros Hown Hproto. split; [|reflexivity].
  unfold selected, getProperty.
  change (default "undefined" (Some key)) with key. rewrite Hown.
  destruct (existsb (String.eqb key) objectPrototype) eqn:E; [|done].
  apply existsb_exists in E. destruct E as (x & Hx & Heq).
  apply String.eqb_eq in Heq. by subst.
Qed.

(** The commands themselves return [0] or nothing. *)
Lemma call_own_value (c : Command) (args : list string) (w w' : World)
    (v : JsRet) :
  call execFile term root passthrough (Own c) args w = (Resolved v, w') ->
  v = Undefined \/ v = NumberV 0.
Proof.
  destruct c; cbn [call];
    try (destruct (passthrough _ args w) as [[[]|e] w2]; simpl;
         intros [= <- <-]; by left).
  - unfold status, forEachRepo.
    destruct (findGit "." root); [|done].
    destruct (eachRepo _ _ _) as [slots w2].
    destruct (flatMapRows _ _ _); [|done]. intros [= <- <-]. by right.
  - intros [= <- <-]. by left.
Qed.

(** For a command of the program, the exit code is 0 when it completes
    and 1, with the error on the error stream, when it throws. *)
Lemma main_exit_code (name : string) (c : Command) (args : list string)
    (w : World) :
  ownProperty name = Some c ->
  match call execFile term root passthrough (Own c) args w with
  | (Resolved _, w') =>
      main execFile term root passthrough (name :: args) w = (w', NumberV 0)
  | (Rejected e, w') =>
      main execFile term root passthrough (name :: args) w
      = (console_error (Uncaught e) w', NumberV 1)
  end.
Proof.
  intros Hown. unfold main, selected, getProperty.
  cbn [List.head List.tail].
  change (default "undefined" (Some name)) with name. rewrite Hown.
  change (default (Own Help) (Some (Own c))) with (Own c).
  destruct (call execFile term root passthrough (Own c) args w)
    as [[v|e] w'] eqn:E; [|done].
  by destruct (call_own_value _ _ _ _ _ E) as [->| ->].
Qed.

End Dispatch.

(** C8 on concrete command lines: [toString] is not a command, yet it
    is found on the prototype of [commands]; it is called in place of
    [help], nothing is printed, and the exit code is the string it
    returns.  [__proto__] is found too and is not callable.  A name that
    is on neither object, such as [frobnicate], does reach [help]. *)
Theorem inherited_property_is_dispatched :
  selected (Some "toString") = Inherited "toString"
  /\ main (scripted sameOrganisation) plainTerminal twoRepos noPassthrough
       ["toString"] emptyWorld
     = (emptyWorld, StringV "[object Undefined]")
  /\ main (scripted sameOrganisation) plainTerminal twoRepos noPassthrough
       ["__proto__"] emptyWorld
     = (mkWorld None
          [Uncaught
             (typeError "(commands[command] || help) is not a function")] [],
        NumberV 1)
  /\ selected (Some "frobnicate") = Own Help
  /\ selected None = Own Help.
Proof. repeat split; vm_compute; reflexivity. Qed.

(** ** Paths *)

Lemma split_nonempty (sep : ascii) (s : string) : JsString.split sep s <> [].
Proof.
  pose proof (split_length sep s) as H. intros E. rewrite E in H. simpl in H. lia.
Qed.

Lemma split_append_sep (sep : ascii) (p s : string) :
  JsString.split sep (p +:+ String sep s)
  = JsString.split sep p ++ JsString.split sep s.
Proof.
  induction p as [|c p IH].
  - rewrite append_nil_l. simpl. by rewrite Ascii.eqb_refl.
  - rewrite append_cons. simpl. rewrite IH.
    destruct (Ascii.eqb c sep); [done|].
    pose proof (split_nonempty sep p) as Hne.
    by destruct (JsString.split sep p).
Qed.

Lemma split_slashFree (n : string) :
  slashFree n = true -> JsString.split "/" n = [n].
Proof.
  induction n as [|c n IH]; [done|]. simpl.
  destruct (Ascii.eqb c "/"); [done|]. simpl. intros H. by rewrite IH.
Qed.

Lemma join_split (p : string) :
  JsString.join "/" (JsString.split "/" p) = p.
Proof.
  unfold JsString.join. induction p as [|c p IH]; [done|]. simpl.
  pose proof (split_nonempty "/" p) as Hne.
  destruct (Ascii.eqb_spec c "/") as [->|Hc].
  - destruct (JsString.split "/" p) as [|w ws]; [done|].
    cbn [String.concat]. cbn [String.concat] in IH. by rewrite IH.
  - destruct (JsString.split "/" p) as [|w ws]; [done|].
    cbn [String.concat] in *. destruct ws as [|w' ws].
    + by rewrite IH.
    + by rewrite <- IH.
Qed.

Lemma last_app_nonempty {A : Type} (l1 l2 : list A) (d : A) :
  l2 <> [] -> List.last (l1 ++ l2) d = List.last l2 d.
Proof.
  intros H. induction l1 as [|x l1 IH]; [done|].
  simpl. rewrite IH. destruct (l1 ++ l2) eqn:E; [|done].
  apply app_eq_nil in E. by destruct E.
Qed.

(** The final segment of a joined path is the final segment of the name. *)
Lemma basename_join (path n : string) :
  Path.basename (Path.join path n) = Path.basename n.
Proof.
  unfold Path.basename, Path.join, Path.segments.
  destruct (String.eqb path "."); [done|].
  change ("/" +:+ n) with (String "/" n).
  rewrite split_append_sep. apply last_app_nonempty, split_nonempty.
Qed.

Lemma basename_slashFree (n : string) :
  slashFree n = true -> Path.basename n = n.
Proof.
  intros H. unfold Path.basename, Path.segments. by rewrite split_slashFree.
Qed.

(** The parent of a joined path is the path that was joined. *)
Lemma dirname_join (path n : string) :
  slashFree n = true -> Path.dirname (Path.join path n) = path.
Proof.
  intros H. unfold Path.dirname, Path.join, Path.segments.
  destruct (String.eqb_spec path ".") as [->|Hne].
  - rewrite split_slashFree by done. reflexivity.
  - change ("/" +:+ n) with (String "/" n).
    rewrite split_append_sep, (split_slashFree n) by done.
    rewrite removelast_last.
    pose proof (split_nonempty "/" path) as Hs.
    pose proof (join_split path) as Hj.
    by destruct (JsString.split "/" path).
Qed.

(** ** Discovery *)

(** The recursion of [findGit], with the [filter] and [map] of the
    source. *)
Lemma findGit_eq (path : string) (node : Dirent) :
  findGit path node
  = if String.eqb (Path.basename path) ".git"
    then Resolved [Path.dirname path]
    else
      match readdir node with
      | Rejected e => Rejected e
      | Resolved directories =>
          Promise.map (@concat string)
            (Promise.all
               (List.map
                  (fun dirEnt => findGit (Path.join path (name dirEnt)) dirEnt)
                  (List.filter isDirectory directories)))
      end.
Proof.
  destruct node as [n|n entries|n e]; cbn [findGit readdir];
    destruct (String.eqb (Path.basename path) ".git"); try done.
  do 2 f_equal.
  induction entries as [|dirEnt entries IH]; [done|].
  cbn [List.filter]. destruct (isDirectory dirEnt); [|done].
  cbn [List.map]. by rewrite IH.
Qed.

Lemma Promise_all_resolved {A : Type} (ps : list (Promise A))
    (results : list A) :
  Forall2 (fun p r => p = Resolved r) ps results ->
  Promise.all ps = Resolved results.
Proof.
  induction 1 as [|p r ps results -> _ IH]; [done|].
  cbn [Promise.all]. by rewrite IH.
Qed.

(** C6: a path whose final segment is [.git] yields its parent alone,
    without any listing: the recursion ends there, and for the [.git]
    entry of a directory that parent is the directory; for any other path
    whose directory can be listed, the result is the concatenation, in
    listing order, of the results for its immediate subdirectories, the
    other entries being ignored; so a directory without subdirectories
    yields the empty list. *)
Theorem findGit_spec (path : string) (node : Dirent) :
  (Path.basename path = ".git" ->
   findGit path node = Resolved [Path.dirname path])
  /\ (forall segs,
        forallb validName segs = true ->
        findGit (Path.join (render segs) ".git") node = Resolved [render segs])
  /\ (Path.basename path <> ".git" ->
      forall directories, readdir node = Resolved directories ->
        findGit path node
        = Promise.map (@concat string)
            (Promise.all
               (List.map
                  (fun dirEnt => findGit (Path.join path (name dirEnt)) dirEnt)
                  (List.filter isDirectory directories)))
        /\ (forall results,
              Forall2
                (fun dirEnt found =>
                   findGit (Path.join path (name dirEnt)) dirEnt
                   = Resolved found)
                (List.filter isDirectory directories) results ->
              findGit path node = Resolved (concat results))
        /\ (List.filter isDirectory directories = [] ->
            findGit path node = Resolved [])).
Proof.
  split; [|split].
  - intros H. by rewrite findGit_eq, H.
  - intros segs _. rewrite findGit_eq, basename_join.
    change (Path.basename ".git") with ".git". cbn [String.eqb Ascii.eqb].
    by rewrite dirname_join.
  - intros H directories Hread.
    assert (E : findGit path node
                = Promise.map (@concat string)
                    (Promise.all
                       (List.map
                          (fun dirEnt =>
                             findGit (Path.join path (name dirEnt)) dirEnt)
                          (List.filter isDirectory directories)))).
    { rewrite findGit_eq, Hread.
      by destruct (String.eqb_spec (Path.basename path) ".git"). }
    split; [exact E|]. split.
    + intros results Hall. rewrite E.
      rewrite (Promise_all_resolved _ results); [done|].
      clear -Hall. induction Hall; by constructor.
    + intros Hnone. by rewrite E, Hnone.
Qed.

Lemma findGit_spec_witness :
  findGit "a/.git" (File ".git") = Resolved ["a"]
  /\ findGit "packages/terminal/.git" (Directory ".git" [])
     = Resolved ["packages/terminal"]
  /\ findGit "." (Directory "." [File "README.md"]) = Resolved []
  /\ findGit "." twoRepos = Resolved ["a"; "b"].
Proof.
  split; [|split; [|split]].
  - destruct (findGit_spec "a/.git" (File ".git")) as (H & _ & _).
    apply H. reflexivity.
  - destruct (findGit_spec "." (Directory ".git" [])) as (_ & H & _).
    apply (H ["packages"; "terminal"]). reflexivity.
  - destruct (findGit_spec "." (Directory "." [File "README.md"]))
      as (_ & _ & H).
    destruct (H ltac:(discriminate) [File "README.md"] eq_refl)
      as (_ & _ & Hnone).
    apply Hnone. reflexivity.
  - destruct (findGit_spec "." twoRepos) as (_ & _ & H).
    destruct (H ltac:(discriminate) _ eq_refl) as (_ & Hall & _).
    apply (Hall [["a"]; ["b"]]).
    repeat constructor.
Defined.

(** Induction on the directory tree. *)
Lemma Dirent_tree_ind (P : Dirent -> Prop) :
  (forall n, P (File n)) ->
  (forall n entries, Forall P entries -> P (Directory n entries)) ->
  (forall n e, P (Unreadable n e)) ->
  forall node, P node.
Proof.
  intros Hfile Hdir Hunreadable.
  fix IH 1. intros [n|n entries|n e].
  - apply Hfile.
  - apply Hdir. induction entries as [|dirEnt entries IHentries].
    + constructor.
    + constructor; [apply IH | apply IHentries].
  - apply Hunreadable.
Qed.

Lemma Promise_map_concat_cons {A : Type} (v : list A)
    (ps : list (Promise (list A))) (rest : list A) :
  Promise.map (@concat A) (Promise.all ps) = Resolved rest ->
  Promise.map (@concat A) (Promise.all (Resolved v :: ps))
  = Resolved (v ++ rest).
Proof.
  cbn [Promise.all]. destruct (Promise.all ps) as [vs|e]; [|done].
  simpl. by intros [= <-].
Qed.

Lemma validName_slashFree (n : string) :
  validName n = true -> slashFree n = true.
Proof. unfold validName. by intros [[[H _]%andb_prop _]%andb_prop _]%andb_prop. Qed.

(** In a well-formed tree whose directories can be read, [findGit]
    returns the working trees, each by its path. *)
Lemma findGit_workingTrees (node : Dirent) :
  wellFormed node = true -> scannable node = true ->
  forall path, Path.basename path <> ".git" ->
    findGit path node
    = Resolved (List.map (descend path) (workingTrees node)).
Proof.
  induction node as [n|n entries IH|n e] using Dirent_tree_ind;
    [done| |done].
  cbn [wellFormed scannable]. intros Hwf Hscan path Hpath.
  apply andb_prop in Hwf as [[Hvalid _]%andb_prop Hwf].
  rewrite findGit_eq. cbn [readdir workingTrees].
  destruct (String.eqb_spec (Path.basename path) ".git") as [|_]; [done|].
  induction entries as [|dirEnt entries IHentries]; [done|].
  cbn [List.map forallb] in Hvalid, Hwf, Hscan.
  apply andb_prop in Hvalid as [Hname Hvalid].
  apply andb_prop in Hwf as [Hwf1 Hwf].
  apply andb_prop in Hscan as [Hscan1 Hscan].
  apply Forall_cons_iff in IH as [IH1 IH].
  specialize (IHentries IH Hvalid Hwf Hscan).
  apply validName_slashFree in Hname.
  cbn [List.filter List.flat_map]. unfold listed in Hscan1.
  destruct (isDirectory dirEnt); [|exact IHentries].
  cbn [List.map]. rewrite map_app.
  destruct (String.eqb_spec (name dirEnt) ".git") as [Hgit|Hgit].
  - rewrite findGit_eq, basename_join, Hgit.
    change (Path.basename ".git") with ".git". cbn [String.eqb Ascii.eqb].
    rewrite dirname_join by done.
    by apply Promise_map_concat_cons.
  - simpl in Hscan1. rewrite IH1; [| done | done |].
    + rewrite map_map. by apply Promise_map_concat_cons.
    + by rewrite basename_join, basename_slashFree.
Qed.

Lemma workingTrees_Directory (n : string) (entries : list Dirent) :
  workingTrees (Directory n entries) = List.flat_map treesBelow entries.
Proof. reflexivity. Qed.

Lemma treesBelow_inv (dirEnt : Dirent) (segs : list string) :
  In segs (treesBelow dirEnt) ->
  isDirectory dirEnt = true
  /\ ((segs = [] /\ name dirEnt = ".git")
      \/ (exists rest, segs = name dirEnt :: rest
                       /\ In rest (workingTrees dirEnt)
                       /\ listed dirEnt = true)).
Proof.
  unfold treesBelow, listed. destruct (isDirectory dirEnt); [|done].
  destruct (String.eqb_spec (name dirEnt) ".git") as [Hgit|Hgit].
  - intros [<-|[]]. split; [done|]. by left.
  - intros (rest & <- & Hrest)%in_map_iff. split; [done|]. right. by exists rest.
Qed.

(** The working trees are the directories that can be reached without
    entering a [.git] and that hold a [.git] directory. *)
Lemma workingTrees_Reach (node : Dirent) (segs : list string) :
  In segs (workingTrees node)
  <-> exists node', Reach node segs node' /\ hasGitDir node' = true.
Proof.
  split.
  - revert segs.
    induction node as [n|n entries IH|n e] using Dirent_tree_ind;
      [done| |done].
    intros segs. rewrite workingTrees_Directory.
    intros (dirEnt & Hin & Hsegs)%in_flat_map.
    apply treesBelow_inv in Hsegs
      as [Hdir [[-> Hgit]|(rest & -> & Hrest & Hlisted)]].
    + exists (Directory n entries). split; [constructor|].
      cbn [hasGitDir]. apply existsb_exists. exists dirEnt.
      split; [done|]. rewrite Hdir, Hgit. reflexivity.
    + rewrite Forall_forall in IH.
      destruct (IH dirEnt (proj2 (list_elem_of_In _ _) Hin) rest Hrest)
        as (node' & Hreach & Hhas).
      exists node'. split; [by constructor | done].
  - intros (node' & Hreach & Hhas).
    induction Hreach as [node|n entries dirEnt segs node' Hin Hlisted _ IH].
    + destruct node as [n|n entries|n e]; [done| |done].
      cbn [hasGitDir] in Hhas. apply existsb_exists in Hhas.
      destruct Hhas as (dirEnt & Hin & [Hdir Hgit]%andb_prop).
      rewrite workingTrees_Directory. apply in_flat_map. exists dirEnt.
      split; [done|]. unfold treesBelow. rewrite Hdir, Hgit. by left.
    + rewrite workingTrees_Directory. apply in_flat_map. exists dirEnt.
      split; [done|]. unfold treesBelow. unfold listed in Hlisted.
      apply andb_prop in Hlisted as [-> Hgit].
      apply negb_true_iff in Hgit. rewrite Hgit.
      apply in_map. by apply IH.
Qed.

Lemma distinct_cons (x : string) (l : list string) :
  distinct (x :: l) = true -> ~ In x l /\ distinct l = true.
Proof.
  cbn [distinct]. intros [Hx Hl]%andb_prop. split; [|done].
  intros Hin. apply negb_true_iff in Hx.
  assert (existsb (String.eqb x) l = true); [|congruence].
  apply existsb_exists. exists x. split; [done | apply String.eqb_refl].
Qed.

(** With pairwise different names in every directory, no working tree is
    listed twice. *)
Lemma workingTrees_NoDup (node : Dirent) :
  wellFormed node = true -> List.NoDup (workingTrees node).
Proof.
  induction node as [n|n entries IH|n e] using Dirent_tree_ind;
    [constructor| |constructor].
  cbn [wellFormed]. intros [[_ Hdistinct]%andb_prop Hwf]%andb_prop.
  rewrite workingTrees_Directory.
  induction entries as [|dirEnt entries IHentries]; [constructor|].
  cbn [List.map forallb] in Hdistinct, Hwf.
  apply distinct_cons in Hdistinct as [Hfresh Hdistinct].
  apply andb_prop in Hwf as [Hwf1 Hwf].
  apply Forall_cons_iff in IH as [IH1 IH].
  specialize (IHentries IH Hdistinct Hwf).
  cbn [List.flat_map]. apply NoDup_ListNoDup, NoDup_app.
  split; [|split].
  - apply NoDup_ListNoDup. unfold treesBelow.
    destruct (isDirectory dirEnt); [|constructor].
    destruct (String.eqb (name dirEnt) ".git").
    + repeat constructor. by intros [].
    + apply Finite.Injective_map_NoDup; [|by apply IH1].
      by intros a b [= ->].
  - intros segs Hhere%list_elem_of_In Hthere%list_elem_of_In.
    apply in_flat_map in Hthere as (other & Hother & Hsegs).
    assert (Hname : name other <> name dirEnt).
    { intros E. apply Hfresh. rewrite <- E. by apply in_map. }
    apply treesBelow_inv in Hhere as [_ [[-> Hgit]|(rest & -> & _ & _)]];
      apply treesBelow_inv in Hsegs as [_ [[E Hgit']|(rest' & E & _ & _)]];
      congruence.
  - by apply NoDup_ListNoDup.
Qed.

Lemma join_cons2 (sep x y : string) (l : list string) :
  JsString.join sep (x :: y :: l) = x +:+ sep +:+ JsString.join sep (y :: l).
Proof. reflexivity. Qed.

Lemma join_snoc (sep : string) (segs : list string) (n : string) :
  segs <> [] ->
  JsString.join sep (segs ++ [n]) = JsString.join sep segs +:+ sep +:+ n.
Proof.
  induction segs as [|x [|y l] IH]; [done| |]; intros _.
  - reflexivity.
  - change ((x :: y :: l) ++ [n]) with (x :: y :: (l ++ [n])).
    rewrite !join_cons2. change (y :: l ++ [n]) with ((y :: l) ++ [n]).
    rewrite IH by done. by rewrite !append_assoc.
Qed.

Lemma split_join (segs : list string) :
  segs <> [] -> forallb slashFree segs = true ->
  JsString.split "/" (JsString.join "/" segs) = segs.
Proof.
  induction segs as [|x [|y l] IH]; [done| |]; intros _.
  - cbn [forallb]. intros [H _]%andb_prop. by apply split_slashFree.
  - intros [Hx Hrest]%andb_prop. rewrite join_cons2.
    change ("/" +:+ JsString.join "/" (y :: l))
      with (String "/" (JsString.join "/" (y :: l))).
    rewrite split_append_sep, (split_slashFree x), IH by done. done.
Qed.

Lemma forallb_validName_slashFree (segs : list string) :
  forallb validName segs = true -> forallb slashFree segs = true.
Proof.
  induction segs as [|x l IH]; [done|]. cbn [forallb].
  intros [Hx Hl]%andb_prop. apply validName_slashFree in Hx.
  by rewrite Hx, IH.
Qed.

Lemma render_not_root (segs : list string) :
  segs <> [] -> forallb validName segs = true -> render segs <> ".".
Proof.
  intros Hne Hvalid E.
  pose proof (split_join segs Hne (forallb_validName_slashFree _ Hvalid)) as H.
  destruct segs as [|x l]; [done|]. unfold render in E. rewrite E in H.
  cbn in H. injection H as <- <-. done.
Qed.

Lemma render_snoc (segs : list string) (n : string) :
  forallb validName segs = true ->
  Path.join (render segs) n = render (segs ++ [n]).
Proof.
  intros Hvalid. destruct segs as [|x l]; [done|].
  pose proof (render_not_root (x :: l) ltac:(done) Hvalid) as Hne.
  unfold Path.join. apply String.eqb_neq in Hne. rewrite Hne.
  unfold render. cbn [app]. destruct (l ++ [n]) eqn:E.
  { by destruct l. }
  rewrite <- E. change (x :: l ++ [n]) with ((x :: l) ++ [n]).
  by rewrite join_snoc.
Qed.

(** Joining names one by one from the scan root gives the path that
    lists them. *)
Lemma descend_render (segs0 segs : list string) :
  forallb validName segs0 = true -> forallb validName segs = true ->
  descend (render segs0) segs = render (segs0 ++ segs).
Proof.
  revert segs0. induction segs as [|n segs IH]; intros segs0 H0 H.
  - by rewrite app_nil_r.
  - cbn [forallb] in H. apply andb_prop in H as [Hn H].
    unfold descend. cbn [fold_left]. rewrite render_snoc by done.
    fold (descend (render (segs0 ++ [n])) segs). rewrite IH; [| |done].
    + by rewrite <- app_assoc.
    + rewrite forallb_app, H0. cbn [forallb]. by rewrite Hn.
Qed.

(** Different directories have different paths. *)
Lemma render_inj (a b : list string) :
  forallb validName a = true -> forallb validName b = true ->
  render a = render b -> a = b.
Proof.
  intros Ha Hb E.
  destruct a as [|x a], b as [|y b]; [done| | |].
  - symmetry in E. by apply render_not_root in E.
  - by apply render_not_root in E.
  - unfold render in E.
    rewrite <- (split_join (x :: a)), <- (split_join (y :: b)), E;
      auto using forallb_validName_slashFree.
Qed.

Lemma Reach_valid (node node' : Dirent) (segs : list string) :
  Reach node segs node' -> wellFormed node = true ->
  forallb validName segs = true.
Proof.
  induction 1 as [node|n entries dirEnt segs node' Hin _ _ IH]; [done|].
  cbn [wellFormed forallb].
  intros [[Hvalid _]%andb_prop Hwf]%andb_prop.
  rewrite forallb_forall in Hvalid, Hwf.
  rewrite (Hvalid (name dirEnt)) by (by apply in_map).
  by rewrite IH by (by apply Hwf).
Qed.

Lemma Reach_trans (a b c : Dirent) (segs segs' : list string) :
  Reach a segs b -> Reach b segs' c -> Reach a (segs ++ segs') c.
Proof.
  induction 1 as [node|n entries dirEnt segs node' Hin Hl _ IH]; [done|].
  intros H. cbn [app]. constructor; auto.
Qed.

(** C10: in a tree that can be read, whose names are valid and pairwise
    different in each directory, discovery returns the path of every
    directory that holds a [.git] directory and that is reached without
    entering a [.git], each exactly once, and nothing else.  Reaching a
    directory does not depend on the directories above it being
    repositories: a repository nested in the working tree of another is
    found along with the outer one. *)
Theorem discovery_descends_past_repositories (root : Dirent) :
  wellFormed root = true -> scannable root = true ->
  exists found,
    findGit "." root = Resolved found
    /\ (forall segs node,
          Reach root segs node -> hasGitDir node = true ->
          In (render segs) found
          /\ count_occ String.string_dec found (render segs) = 1)
    /\ (forall path,
          In path found ->
          exists segs node,
            Reach root segs node /\ hasGitDir node = true
            /\ path = render segs)
    /\ (forall segs segs' outer inner,
          Reach root segs outer -> hasGitDir outer = true ->
          Reach outer segs' inner -> hasGitDir inner = true ->
          In (render segs) found /\ In (render (segs ++ segs')) found).
Proof.
  intros Hwf Hscan.
  exists (List.map (descend ".") (workingTrees root)).
  split; [by apply findGit_workingTrees|].
  assert (Hdescend : forall segs, In segs (workingTrees root) ->
            descend "." segs = render segs /\ forallb validName segs = true).
  { intros segs (node & Hreach & _)%workingTrees_Reach.
    pose proof (Reach_valid _ _ _ Hreach Hwf) as Hvalid.
    split; [|done]. by apply (descend_render []). }
  assert (Hin : forall segs node,
            Reach root segs node -> hasGitDir node = true ->
            In (render segs) (List.map (descend ".") (workingTrees root))).
  { intros segs node Hreach Hhas. apply in_map_iff. exists segs.
    assert (In segs (workingTrees root)) as Hsegs
      by (apply workingTrees_Reach; eauto).
    split; [by apply Hdescend | done]. }
  split; [|split].
  - intros segs node Hreach Hhas. split; [by eapply Hin|].
    apply NoDup_count_occ'; [|by eapply Hin].
    apply NoDup_ListNoDup, NoDup_fmap_2_strong;
      [|by apply NoDup_ListNoDup, workingTrees_NoDup].
    intros a b Ha%list_elem_of_In Hb%list_elem_of_In E.
    destruct (Hdescend a Ha) as [Ea Hva], (Hdescend b Hb) as [Eb Hvb].
    rewrite Ea, Eb in E. by apply render_inj.
  - intros path (segs & <- & Hsegs)%in_map_iff.
    destruct (Hdescend segs Hsegs) as [-> _].
    apply workingTrees_Reach in Hsegs as (node & Hreach & Hhas).
    by exists segs, node.
  - intros segs segs' outer inner Houter Hhas Hinner Hhas'.
    split; [by eapply Hin|].
    eapply Hin; [|exact Hhas']. by eapply Reach_trans.
Qed.

Lemma discovery_descends_past_repositories_witness :
  findGit "." nestedRepos = Resolved ["."; "vendor/lib"]
  /\ count_occ String.string_dec ["."; "vendor/lib"] "." = 1
  /\ In "vendor/lib" ["."; "vendor/lib"].
Proof.
  destruct (discovery_descends_past_repositories nestedRepos eq_refl eq_refl)
    as (found & Hfound & Hall & _ & Hnested).
  assert (Hvendor : Reach nestedRepos ["vendor"; "lib"]
                      (Directory "lib" [Directory ".git" []; File "lib.js"])).
  { apply (reach_below "." _
             (Directory "vendor"
                [Directory "lib" [Directory ".git" []; File "lib.js"]])
             ["lib"]).
    - right. right. by left.
    - reflexivity.
    - apply (reach_below "vendor" _
               (Directory "lib" [Directory ".git" []; File "lib.js"]) []).
      + by left.
      + reflexivity.
      + constructor. }
  destruct (Hall [] nestedRepos (reach_here _) eq_refl) as [_ Hcount].
  destruct (Hnested [] ["vendor"; "lib"] nestedRepos _ (reach_here _) eq_refl
              Hvendor eq_refl) as [_ Hin].
  vm_compute in Hfound. injection Hfound as <-.
  split; [reflexivity|]. split; [exact Hcount | exact Hin].
Defined.

(** * Further properties *)

(** ** [commonPrefix] as a greatest lower bound *)

Lemma isPrefix_length (p s : string) :
  isPrefix p s -> String.length p <= String.length s.
Proof. intros [rest ->]. rewrite length_append. lia. Qed.

(** [commonPrefix(a, b)] is a leading substring of [a] and of [b], and
    every common leading substring of the two is one of it: it is the
    longest one.  It is [a] itself exactly when [a] is a leading substring
    of [b]. *)
Theorem commonPrefix_greatest (a b q : string) :
  isPrefix (commonPrefix a b) a
  /\ isPrefix (commonPrefix a b) b
  /\ (isPrefix q a -> isPrefix q b -> isPrefix q (commonPrefix a b))
  /\ (isPrefix q a -> isPrefix q b ->
      String.length q <= String.length (commonPrefix a b))
  /\ (commonPrefix a b = a <-> isPrefix a b)
  /\ String.length (commonPrefix a b)
     <= Nat.min (String.length a) (String.length b).
Proof.
  rewrite commonPrefix_lcp.
  assert (Ha : isPrefix (lcp a b) a) by apply lcp_prefix.
  assert (Hb : isPrefix (lcp a b) b) by (rewrite lcp_comm; apply lcp_prefix).
  split; [done|]. split; [done|].
  split; [apply lcp_greatest|].
  split; [intros H1 H2; apply isPrefix_length; by apply lcp_greatest|].
  split.
  - split; [by intros <-|].
    intros H. apply isPrefix_antisym; [done|].
    apply lcp_greatest; [apply isPrefix_refl | done].
  - apply isPrefix_length in Ha, Hb. lia.
Qed.

Lemma commonPrefix_greatest_witness :
  isPrefix "git@host:" (commonPrefix "git@host:org/a.git" "git@host:team/b.git")
  /\ commonPrefix "git@host:org/" "git@host:org/a.git" = "git@host:org/".
Proof.
  destruct (commonPrefix_greatest "git@host:org/a.git" "git@host:team/b.git"
              "git@host:") as (_ & _ & H & _).
  destruct (commonPrefix_greatest "git@host:org/" "git@host:org/a.git"
              EmptyString) as (_ & _ & _ & _ & [_ H'] & _).
  split.
  - apply H; [by exists "org/a.git" | by exists "team/b.git"].
  - apply H'. by exists "a.git".
Defined.

(** ** [gitLogCount] counts the lines *)

Lemma split_count (sep : ascii) (s : string) :
  length (JsString.split sep s) = S (countChar sep s).
Proof.
  induction s as [|c s IH]; [done|]. simpl.
  destruct (Ascii.eqb c sep); simpl; [by rewrite IH|].
  destruct (JsString.split sep s); simpl in *; lia.
Qed.

Lemma countChar_append (c : ascii) (s t : string) :
  countChar c (s +:+ t) = countChar c s + countChar c t.
Proof.
  induction s as [|x s IH]; [done|]. rewrite append_cons. simpl.
  rewrite IH. lia.
Qed.

Lemma countChar_charFree (c : ascii) (s : string) :
  charFree c s = true -> countChar c s = 0.
Proof.
  induction s as [|x s IH]; [done|]. simpl.
  intros [Hx Hs]%andb_prop. apply negb_true_iff in Hx. rewrite Hx.
  by rewrite IH.
Qed.

Lemma countChar_terminated (sep : ascii) (fields : list string) :
  forallb (charFree sep) fields = true ->
  countChar sep (terminated sep fields) = length fields.
Proof.
  induction fields as [|field rest IH]; [done|]. cbn [forallb terminated].
  intros [Hf Hrest]%andb_prop.
  rewrite countChar_append, countChar_charFree by done. simpl.
  rewrite Ascii.eqb_refl. by rewrite IH.
Qed.

(** When the log query succeeds, the count is the number of line feeds
    of its output: zero for an empty output, and the number of lines when
    every line ends with a line feed.  When it fails the result is the
    marker ["!"], whatever the error. *)
Theorem gitLogCount_counts_lines
    (execFile : string -> list string -> string -> Promise Output)
    (cwd from to : string) (lines : list string) :
  gitLogCount execFile cwd from to
  = match execFile "git" ["log"; "--oneline"; from +:+ ".." +:+ to] cwd with
    | Resolved out => Num (Z.of_nat (countChar "010" (stdout out)))
    | Rejected _ => Str Bang
    end
  /\ (forallb (charFree "010") lines = true ->
      execFile "git" ["log"; "--oneline"; from +:+ ".." +:+ to] cwd
      = Resolved (mkOutput (terminated "010" lines)) ->
      gitLogCount execFile cwd from to = Num (Z.of_nat (length lines))).
Proof.
  assert (H : gitLogCount execFile cwd from to
    = match execFile "git" ["log"; "--oneline"; from +:+ ".." +:+ to] cwd with
      | Resolved out => Num (Z.of_nat (countChar "010" (stdout out)))
      | Rejected _ => Str Bang
      end).
  { unfold gitLogCount.
    destruct (execFile "git" ["log"; "--oneline"; from +:+ ".." +:+ to] cwd);
      [|done].
    rewrite split_count. f_equal. lia. }
  split; [exact H|].
  intros Hlines Hout. rewrite H, Hout. cbn [stdout].
  by rewrite countChar_terminated.
Qed.

Lemma gitLogCount_counts_lines_witness :
  gitLogCount
    (fun _ _ _ => Resolved (mkOutput (terminated "010" ["1f3a one"; "77b0 two"])))
    "a" "@{u}" "HEAD"
  = Num 2.
Proof.
  destruct (gitLogCount_counts_lines
              (fun _ _ _ =>
                 Resolved (mkOutput (terminated "010" ["1f3a one"; "77b0 two"])))
              "a" "@{u}" "HEAD" ["1f3a one"; "77b0 two"]) as [_ H].
  apply H; reflexivity.
Defined.

(** ** Reading the status listing *)

Lemma split_charFree (sep : ascii) (s : string) :
  charFree sep s = true -> JsString.split sep s = [s].
Proof.
  induction s as [|c s IH]; [done|]. simpl.
  destruct (Ascii.eqb c sep); [done|]. simpl. intros H. by rewrite IH.
Qed.

Lemma split_terminated (sep : ascii) (fields : list string) :
  forallb (charFree sep) fields = true ->
  JsString.split sep (terminated sep fields) = fields ++ [EmptyString].
Proof.
  induction fields as [|field rest IH]; [done|]. cbn [forallb terminated].
  intros [Hf Hrest]%andb_prop.
  by rewrite split_append_sep, split_charFree, IH.
Qed.

(** The fields of a NUL-terminated listing that are longer than two
    characters are the entries, each split after its second and third
    character. *)
Lemma statusEntries_terminated (fields : list string) :
  forallb (charFree "000") fields = true ->
  statusEntries (terminated "000" fields)
  = List.map readField
      (List.filter (fun field => 2 <? String.length field) fields).
Proof.
  intros H. unfold statusEntries. rewrite split_terminated by done.
  rewrite List.filter_app. cbn [List.filter String.length Nat.ltb Nat.leb].
  by rewrite app_nil_r.
Qed.

Lemma charFree_append (c : ascii) (s t : string) :
  charFree c (s +:+ t) = charFree c s && charFree c t.
Proof.
  induction s as [|x s IH]; [done|]. rewrite append_cons. simpl.
  rewrite IH. by rewrite andb_assoc.
Qed.

Lemma substring_append (p rest : string) :
  String.substring 0 (String.length p) (p +:+ rest) = p.
Proof.
  induction p as [|c p IH]; [by destruct rest|].
  rewrite append_cons. simpl. by rewrite IH.
Qed.

Lemma readField_printEntry (entry : string * string) :
  String.length (fst entry) = 2 -> readField (printEntry entry) = entry.
Proof.
  destruct entry as [code path]. cbn [fst snd]. intros Hlen.
  unfold readField, printEntry, JsString.slice. cbn [fst snd].
  f_equal.
  - rewrite <- Hlen at 1. rewrite Nat.sub_0_r. apply substring_append.
  - rewrite append_snoc.
    replace 3 with (String.length (code +:+ String " " EmptyString))
      by (rewrite length_append; simpl; lia).
    apply sliceFrom_append.
Qed.

(** Reading a printed listing gives back its entries, in order. *)
Theorem statusEntries_printEntries (entries : list (string * string)) :
  forallb validEntry entries = true ->
  statusEntries (terminated "000" (List.map printEntry entries)) = entries
  /\ forall key,
       tally (terminated "000" (List.map printEntry entries)) !! key
       = if (occurrences key entries =? 0)%Z then None
         else Some (occurrences key entries).
Proof.
  intros Hvalid.
  assert (E : statusEntries (terminated "000" (List.map printEntry entries))
              = entries).
  { rewrite statusEntries_terminated.
    - induction entries as [|entry entries IH]; [done|].
      cbn [forallb] in Hvalid. apply andb_prop in Hvalid as [Hentry Hvalid].
      unfold validEntry in Hentry.
      apply andb_prop in Hentry as [[Hlen%Nat.eqb_eq _]%andb_prop _].
      cbn [List.map List.filter].
      replace (2 <? String.length (printEntry entry)) with true.
      + cbn [List.map]. by rewrite readField_printEntry, IH.
      + symmetry. apply Nat.ltb_lt. unfold printEntry.
        rewrite length_append. simpl. lia.
    - clear -Hvalid. induction entries as [|entry entries IH]; [done|].
      cbn [forallb List.map] in *. apply andb_prop in Hvalid as [Hentry Hvalid].
      unfold validEntry in Hentry.
      apply andb_prop in Hentry as [[_ Hcode]%andb_prop Hpath].
      rewrite IH by done. unfold printEntry.
      rewrite charFree_append, Hcode. simpl. by rewrite Hpath. }
  split; [exact E|]. intros key. by rewrite tally_lookup, E.
Qed.

Lemma statusEntries_printEntries_witness :
  statusEntries
    (terminated "000"
       (List.map printEntry [(" M", "src/a.js"); ("??", "notes.txt")]))
  = [(" M", "src/a.js"); ("??", "notes.txt")].
Proof.
  destruct (statusEntries_printEntries
              [(" M", "src/a.js"); ("??", "notes.txt")] eq_refl) as [H _].
  exact H.
Defined.

(** Every NUL-terminated field longer than two characters is counted,
    whatever it holds.  In the listing of a rename the original path is a
    field of its own: it is read as one more entry and tallied under its
    first two characters. *)
Theorem statusEntries_rename (new old : string) :
  charFree "000" new = true -> charFree "000" old = true ->
  2 < String.length old ->
  statusEntries (terminated "000" ["R  " +:+ new; old])
  = [("R ", new); (JsString.slice old 0 2, JsString.sliceFrom old 3)]
  /\ is_Some (tally (terminated "000" ["R  " +:+ new; old])
              !! JsString.slice old 0 2).
Proof.
  intros Hnew Hold Hlen.
  assert (E : statusEntries (terminated "000" ["R  " +:+ new; old])
              = [("R ", new);
                 (JsString.slice old 0 2, JsString.sliceFrom old 3)]).
  { rewrite statusEntries_terminated.
    - cbn [List.filter].
      replace (2 <? String.length ("R  " +:+ new)) with true
        by (symmetry; apply Nat.ltb_lt; rewrite length_append; simpl; lia).
      replace (2 <? String.length old) with true
        by (symmetry; by apply Nat.ltb_lt).
      cbn [List.map]. f_equal.
      change ("R  " +:+ new) with (printEntry ("R ", new)).
      by rewrite readField_printEntry.
    - cbn [forallb]. rewrite charFree_append, Hnew, Hold. reflexivity. }
  split; [exact E|].
  rewrite tally_lookup, E.
  pose proof (occurrences_nonneg (JsString.slice old 0 2) []) as Hnn.
  rewrite !occurrences_cons. cbn [fst]. rewrite String.eqb_refl.
  destruct (String.eqb "R " (JsString.slice old 0 2));
    match goal with
    | |- is_Some (if ?b then _ else _) =>
        replace b with false by (symmetry; apply Z.eqb_neq; lia)
    end; by eexists.
Qed.

Lemma statusEntries_rename_witness :
  statusEntries (terminated "000" ["R  " +:+ "lib/new.js"; "src/old.js"])
  = [("R ", "lib/new.js"); ("sr", "/old.js")].
Proof.
  destruct (statusEntries_rename "lib/new.js" "src/old.js" eq_refl eq_refl)
    as [H _]; [simpl; lia|].
  exact H.
Defined.

(** ** Which failures a repository survives *)

Section Survives.

Context (execFile : string -> list string -> string -> Promise Output).

Lemma collect_rejected (name cwd : string) (w : World) (e : Error) :
  execFile "git" ["status"; "-z"; "--porcelain=v1"] cwd = Rejected e ->
  collect execFile name cwd w = (Rejected e, w).
Proof. intros H. unfold collect. by rewrite H. Qed.

Lemma collect_resolves (name cwd : string) (w : World) (out : Output) :
  execFile "git" ["status"; "-z"; "--porcelain=v1"] cwd = Resolved out ->
  exists s w', collect execFile name cwd w = (Resolved s, w').
Proof.
  intros H. unfold collect. rewrite H.
  destruct (AutoMap.get 0%Z "??" _) as [n1 m1].
  destruct (AutoMap.get 0%Z " M" m1) as [n2 m2].
  destruct (AutoMap.get 0%Z " D" m2) as [n3 m3].
  by eexists _, _.
Qed.

(** Only the status listing can fail a repository: when it is rejected,
    the collection is rejected with the same error and leaves the state
    untouched; when it resolves, the collection resolves whatever the
    other queries do.  A rejected branch query gives the empty branch and
    blank upstream counts, a rejected URL query the trimmed output of the
    failed command, a rejected fetch the cross, a rejected default-branch
    query the question marks. *)
Theorem collect_fails_only_with_status (name cwd : string) (w : World) :
  match execFile "git" ["status"; "-z"; "--porcelain=v1"] cwd with
  | Rejected e => collect execFile name cwd w = (Rejected e, w)
  | Resolved _ =>
      exists s,
        collect execFile name cwd w
        = (Resolved s,
           setPrefix (updatePrefix (commonRepositoryPrefix w) (repo s)) w)
        /\ repoName s = name
        /\ (forall e,
              execFile "git" ["rev-parse"; "--abbrev-ref"; "HEAD"] cwd
              = Rejected e ->
              branch s = EmptyString /\ behind s = Str Blank
              /\ ahead s = Str Blank)
        /\ (forall e,
              execFile "git" ["config"; "--get"; "remote.origin.url"] cwd
              = Rejected e ->
              repo s = JsString.trim (errStdout e))
        /\ (forall e,
              execFile "git" ["fetch"] cwd = Rejected e ->
              fetchStatus s = FetchFailed)
        /\ (forall e,
              execFile "git" ["rev-parse"; "--abbrev-ref"; "origin/HEAD"] cwd
              = Rejected e ->
              originDefault s = EmptyString
              /\ behindDefault s = Str Question
              /\ aheadDefault s = Str Question)
  end.
Proof.
  destruct (execFile "git" ["status"; "-z"; "--porcelain=v1"] cwd)
    as [out|e] eqn:E; [|by apply collect_rejected].
  destruct (collect_resolves name cwd w out E) as (s & w' & Hc).
  exists s. pose proof Hc as Hr. apply collect_resolved in Hr.
  destruct Hr as (_ & _ & Hname & _ & _ & _ & _ & Hrepo & _ & Hbranch
                  & Hdefault & Hb & Ha & Hbd & Had & ->).
  split; [exact Hc|]. split; [exact Hname|].
  assert (Hfetch : forall e, execFile "git" ["fetch"] cwd = Rejected e ->
                             fetchStatus s = FetchFailed).
  { intros e He. unfold collect in Hc. rewrite E in Hc.
    destruct (AutoMap.get 0%Z "??" _) as [n1 m1].
    destruct (AutoMap.get 0%Z " M" m1) as [n2 m2].
    destruct (AutoMap.get 0%Z " D" m2) as [n3 m3].
    injection Hc as <-. cbn [fetchStatus]. by rewrite He. }
  split; [|split; [|split; [exact Hfetch|]]].
  - intros e He. unfold getBranchName in Hbranch. rewrite He in Hbranch.
    cbn in Hbranch. rewrite Hb, Ha, Hbranch. done.
  - intros e He. rewrite Hrepo, He. done.
  - intros e He. unfold getRemoteDefault in Hdefault. rewrite He in Hdefault.
    cbn in Hdefault. rewrite Hbd, Had, Hdefault. done.
Qed.

Lemma action_without_upstream (s : RepositoryStatus) :
  gt0 (behind s) = false -> gt0 (ahead s) = false ->
  action s = if local s then commit
             else if gt0 (behindDefault s) then merge
             else if gt0 (aheadDefault s) then pr else ok.
Proof. intros Hb Ha. unfold action. by rewrite Hb, Ha. Qed.

(** Without knowledge of the upstream there is no advice about it: when
    the branch name is empty, or when both log queries against the
    upstream are rejected, the action is never [resolve], [pull] or
    [push]; it is [commit] with local changes and otherwise decided by the
    default branch alone.  Likewise an unknown default branch never gives
    [merge] or [pr]. *)
Theorem action_needs_known_divergence (name cwd : string) (w w' : World)
    (s : RepositoryStatus) :
  collect execFile name cwd w = (Resolved s, w') ->
  ((branch s = EmptyString
    \/ ((exists e, execFile "git"
                     ["log"; "--oneline"; "HEAD" +:+ ".." +:+ "@{u}"] cwd
                   = Rejected e)
        /\ (exists e, execFile "git"
                        ["log"; "--oneline"; "@{u}" +:+ ".." +:+ "HEAD"] cwd
                      = Rejected e))) ->
   action s = (if local s then commit
               else if gt0 (behindDefault s) then merge
               else if gt0 (aheadDefault s) then pr else ok)
   /\ action s <> resolve /\ action s <> pull /\ action s <> push)
  /\ (originDefault s = EmptyString ->
      action s <> merge /\ action s <> pr).
Proof.
  intros Hc. apply collect_resolved in Hc.
  destruct Hc as (_ & _ & _ & _ & _ & _ & _ & _ & _ & _ & _ & Hb & Ha & Hbd
                  & Had & _).
  split.
  - intros Hunknown.
    assert (Hgt : gt0 (behind s) = false /\ gt0 (ahead s) = false).
    { destruct Hunknown as [Hbranch|[[e1 H1] [e2 H2]]].
      - rewrite Hb, Ha, Hbranch. done.
      - rewrite Hb, Ha. destruct (JsString.truthy (branch s)); [|done].
        pose proof (gitLogCount_value execFile cwd "HEAD" "@{u}") as V1.
        pose proof (gitLogCount_value execFile cwd "@{u}" "HEAD") as V2.
        rewrite H1 in V1. rewrite H2 in V2. by rewrite V1, V2. }
    destruct Hgt as [Hgb Hga].
    rewrite (action_without_upstream s Hgb Hga).
    destruct (local s), (gt0 (behindDefault s)), (gt0 (aheadDefault s)); done.
  - intros Hdefault. rewrite Hdefault in Hbd, Had. cbn in Hbd, Had.
    unfold action. rewrite Hbd, Had. cbn.
    destruct (local s), (gt0 (ahead s)), (gt0 (behind s)); done.
Qed.

End Survives.

Lemma collect_fails_only_with_status_witness :
  exists s w',
    collect (scripted (fun _ => noRemoteRepo)) "a" "a" emptyWorld
    = (Resolved s, w')
    /\ branch s = "main" /\ repo s = EmptyString
    /\ fetchStatus s = FetchFailed /\ behindDefault s = Str Question.
Proof.
  pose proof (collect_fails_only_with_status
                (scripted (fun _ => noRemoteRepo)) "a" "a" emptyWorld) as H.
  assert (Hs : scripted (fun _ => noRemoteRepo) "git"
                 ["status"; "-z"; "--porcelain=v1"] "a"
               = Resolved (mkOutput EmptyString)) by reflexivity.
  rewrite Hs in H. destruct H as (s & Hc & _ & _ & Hrepo & Hfetch & Hdefault).
  run_collect (scripted (fun _ => noRemoteRepo)) "a" E.
  rewrite E in Hc. injection Hc as <-.
  eexists _, _. split; [exact E|]. split; [reflexivity|].
  split; [exact (Hrepo _ eq_refl)|]. split; [exact (Hfetch _ eq_refl)|].
  exact (proj1 (proj2 (Hdefault _ eq_refl))).
Defined.

Lemma action_needs_known_divergence_witness :
  exists s w',
    collect (scripted (fun _ => noUpstreamRepo)) "a" "a" emptyWorld
    = (Resolved s, w')
    /\ behind s = Str Bang /\ aheadDefault s = Num 2 /\ action s = pr.
Proof.
  run_collect (scripted (fun _ => noUpstreamRepo)) "a" E.
  destruct (action_needs_known_divergence _ _ _ _ _ _ E) as [H _].
  destruct H as (Haction & _).
  { right. split; eexists; reflexivity. }
  eexists _, _. split; [exact E|]. split; [reflexivity|].
  split; [reflexivity|]. rewrite Haction. reflexivity.
Defined.

(** ** When discovery fails *)

Lemma Promise_all_rejected {A : Type} (ps : list (Promise A)) (e : Error) :
  In (Rejected e) ps -> exists e', Promise.all ps = Rejected e'.
Proof.
  induction ps as [|p ps IH]; [done|]. intros Hin. cbn [Promise.all].
  destruct p as [v|e0]; [|by eexists].
  destruct Hin as [|Hin]; [done|]. destruct (IH Hin) as [e' ->]. by eexists.
Qed.

Lemma forallb_false_inv {A : Type} (f : A -> bool) (l : list A) :
  forallb f l = false -> exists x, In x l /\ f x = false.
Proof.
  induction l as [|x l IH]; [done|]. cbn [forallb].
  destruct (f x) eqn:E; [|intros _; exists x; split; [by left | done]].
  intros H. destruct (IH H) as (y & Hy & Hfy). exists y. split; [by right | done].
Qed.

(** A directory that the walk lists and cannot read rejects the walk. *)
Lemma findGit_not_scannable (node : Dirent) :
  wellFormed node = true -> scannable node = false ->
  forall path, Path.basename path <> ".git" ->
    exists e, findGit path node = Rejected e.
Proof.
  induction node as [n|n entries IH|n e] using Dirent_tree_ind;
    intros Hwf Hscan path Hpath; rewrite findGit_eq;
    destruct (String.eqb_spec (Path.basename path) ".git") as [|_];
    try done; cbn [readdir]; try by eexists.
  cbn [wellFormed scannable] in Hwf, Hscan.
  apply andb_prop in Hwf as [[Hvalid _]%andb_prop Hwf].
  apply forallb_false_inv in Hscan as (dirEnt & Hin & Hbad).
  apply orb_false_iff in Hbad as [Hlisted%negb_false_iff Hscan].
  rewrite forallb_forall in Hvalid, Hwf.
  pose proof (Hvalid (name dirEnt) (in_map name _ _ Hin)) as Hname.
  apply validName_slashFree in Hname.
  unfold listed in Hlisted.
  apply andb_prop in Hlisted as [Hdir Hgit%negb_true_iff].
  apply String.eqb_neq in Hgit.
  rewrite Forall_forall in IH.
  destruct (IH dirEnt (proj2 (list_elem_of_In _ _) Hin) (Hwf _ Hin) Hscan
              (Path.join path (name dirEnt))) as [e He].
  { by rewrite basename_join, basename_slashFree. }
  destruct (Promise_all_rejected
              (List.map
                 (fun dirEnt => findGit (Path.join path (name dirEnt)) dirEnt)
                 (List.filter isDirectory entries)) e) as [e' ->].
  - rewrite <- He. apply in_map_iff. exists dirEnt. split; [done|].
    apply filter_In. by split.
  - by eexists.
Qed.

Lemma Reach_scannable (node node' : Dirent) (segs : list string) :
  Reach node segs node' -> scannable node = true -> scannable node' = true.
Proof.
  induction 1 as [node|n entries dirEnt segs node' Hin Hlisted _ IH]; [done|].
  cbn [scannable]. intros Hscan. apply IH.
  rewrite forallb_forall in Hscan. specialize (Hscan _ Hin).
  by rewrite Hlisted in Hscan.
Qed.

(** Discovery resolves exactly when every directory outside of the
    [.git] directories can be listed; one directory that cannot be read,
    at any depth, rejects the whole walk: no repository is returned. *)
Theorem findGit_resolves_iff_scannable (root : Dirent) :
  wellFormed root = true ->
  ((exists found, findGit "." root = Resolved found)
   <-> scannable root = true)
  /\ (forall segs n e,
        Reach root segs (Unreadable n e) ->
        exists e', findGit "." root = Rejected e').
Proof.
  intros Hwf.
  assert (Hiff : (exists found, findGit "." root = Resolved found)
                 <-> scannable root = true).
  { split.
    - intros [found Hfound]. destruct (scannable root) eqn:E; [done|].
      destruct (findGit_not_scannable root Hwf E ".") as [e He]; [done|].
      congruence.
    - intros Hscan. eexists. by apply findGit_workingTrees. }
  split; [exact Hiff|].
  intros segs n e Hreach.
  destruct (scannable root) eqn:E.
  - by apply (Reach_scannable _ _ _ Hreach) in E.
  - by apply findGit_not_scannable.
Qed.

Lemma findGit_resolves_iff_scannable_witness :
  (exists e, findGit "." lockedTree = Rejected e)
  /\ exists found, findGit "." nestedRepos = Resolved found.
Proof.
  destruct (findGit_resolves_iff_scannable lockedTree eq_refl) as [_ H].
  destruct (findGit_resolves_iff_scannable nestedRepos eq_refl) as [[_ H'] _].
  split; [|by apply H'].
  apply (H ["private"; "keys"] "keys" (mkError "EACCES" EmptyString)).
  apply (reach_below "." _
           (Directory "private"
              [Unreadable "keys" (mkError "EACCES" EmptyString)]) ["keys"]).
  - right. by left.
  - reflexivity.
  - apply (reach_below "private" _
             (Unreadable "keys" (mkError "EACCES" EmptyString)) []).
    + by left.
    + reflexivity.
    + constructor.
Defined.

(** ** Running a command in every repository *)

Lemma eachRepo_query {A : Type} (f : string -> string -> Promise A)
    (dirs : list string) (w : World) :
  eachRepo (fun name cwd w => (f name cwd, w)) dirs w
  = (List.map
       (fun path =>
          match f path path with
          | Resolved v => Some v
          | Rejected _ => None
          end) dirs,
     mkWorld (commonRepositoryPrefix w)
       (errorStream w
        ++ omap
             (fun path =>
                match f path path with
                | Resolved _ => None
                | Rejected e => Some (PathMessage path (message e))
                end) dirs)
       (outputStream w)).
Proof.
  revert w. induction dirs as [|path dirs IH]; intros w.
  - destruct w. simpl. by rewrite app_nil_r.
  - cbn [eachRepo List.map]. rewrite omap_cons.
    destruct (f path path) as [v|e]; rewrite IH; [done|].
    cbn [console_error commonRepositoryPrefix errorStream outputStream].
    by rewrite <- app_assoc.
Qed.


Section Output.

Context (execFile : string -> list string -> string -> Promise Output).
Context (term : Terminal).
Context (root : Dirent).

Lemma outputEachRepo_reported (callback : string -> string -> Promise string)
    (w : World) :
  Commands.outputEachRepo term root callback w
  = match findGit "." root with
    | Rejected e => (Rejected e, w)
    | Resolved dirs => (Resolved tt, reported term callback dirs w)
    end.
Proof.
  unfold Commands.outputEachRepo, forEachRepo.
  destruct (findGit "." root) as [dirs|e]; [|done].
  rewrite eachRepo_query. unfold reported, console_log.
  cbn [commonRepositoryPrefix errorStream outputStream].
  f_equal. apply (f_equal2 (mkWorld (commonRepositoryPrefix w))).
  - apply (f_equal (app (errorStream w))).
    induction dirs as [|path dirs IH]; [done|]. rewrite !omap_cons, IH.
    unfold failureOf. by destruct (callback path path).
  - apply (f_equal (app (outputStream w))). do 3 f_equal.
    rewrite map_map. apply map_ext. intros path.
    unfold blockOf. by destruct (callback path path).
Qed.

End Output.

Section PassThrough.

Context (execFile : string -> list string -> string -> Promise Output).
Context (term : Terminal).
Context (root : Dirent).

Lemma run_reported (command : string) (args : list string) (w : World) :
  Commands.run execFile term root command args w
  = match findGit "." root with
    | Rejected e => (Rejected e, w)
    | Resolved dirs =>
        (Resolved tt,
         reported term (commandOutput execFile command args) dirs w)
    end.
Proof. unfold Commands.run. apply outputEachRepo_reported. Qed.



Lemma afterFirstSlash_append (remote rest : string) :
  slashFree remote = true ->
  Commands.afterFirstSlash (remote +:+ String "/" rest) = Some rest.
Proof.
  induction remote as [|c remote IH]; [done|]. rewrite append_cons. simpl.
  intros [Hc Hrest]%andb_prop. apply negb_true_iff in Hc. rewrite Hc.
  by apply IH.
Qed.

Lemma afterFirstSlash_slashFree (s : string) :
  slashFree s = true -> Commands.afterFirstSlash s = None.
Proof.
  induction s as [|c s IH]; [done|]. simpl.
  intros [Hc Hrest]%andb_prop. apply negb_true_iff in Hc. rewrite Hc.
  by apply IH.
Qed.

(** [checkout] with a branch name is [run git checkout <name>], and the
    default branch is not consulted.  Without a name (or with the empty
    name) every repository checks out its own default branch, named
    without the remote: only the text up to the first separator is
    removed, so [origin/feature/x] gives [feature/x], and a name without
    separator is kept.  A repository whose default branch cannot be
    resolved is rejected with that error. *)
Theorem checkout_target (branchName : string) (w : World) (cwd : string) :
  (JsString.truthy branchName = true ->
   Commands.checkout execFile term root (Some branchName) w
   = Commands.run execFile term root "git" ["checkout"; branchName] w)
  /\ Commands.checkout execFile term root None w
     = Commands.outputEachRepo term root (checkoutDefault execFile) w
  /\ Commands.checkout execFile term root (Some EmptyString) w
     = Commands.outputEachRepo term root (checkoutDefault execFile) w
  /\ (forall out remote target,
        execFile "git" ["rev-parse"; "--abbrev-ref"; "origin/HEAD"] cwd
        = Resolved out ->
        JsString.trim (stdout out) = remote +:+ String "/" target ->
        slashFree remote = true ->
        checkoutDefault execFile cwd cwd
        = git execFile cwd ["checkout"; target])
  /\ (forall out,
        execFile "git" ["rev-parse"; "--abbrev-ref"; "origin/HEAD"] cwd
        = Resolved out ->
        slashFree (JsString.trim (stdout out)) = true ->
        checkoutDefault execFile cwd cwd
        = git execFile cwd ["checkout"; JsString.trim (stdout out)])
  /\ (forall e,
        execFile "git" ["rev-parse"; "--abbrev-ref"; "origin/HEAD"] cwd
        = Rejected e ->
        checkoutDefault execFile cwd cwd = Rejected e).
Proof.
  split; [|split; [|split; [|split; [|split]]]]; try reflexivity.
  - by destruct branchName.
  - intros out remote target Hout Htrim Hremote.
    unfold checkoutDefault, getRemoteDefault. rewrite Hout.
    cbn [Promise.map]. unfold Commands.stripRemote.
    by rewrite Htrim, afterFirstSlash_append.
  - intros out Hout Hfree.
    unfold checkoutDefault, getRemoteDefault. rewrite Hout.
    cbn [Promise.map]. unfold Commands.stripRemote.
    by rewrite afterFirstSlash_slashFree.
  - intros e He. unfold checkoutDefault, getRemoteDefault. by rewrite He.
Qed.

(** Whatever a pass-through command does in the repositories, the exit
    code only reports discovery: it is 0 when discovery resolves, even if
    the command failed in every repository, and 1, with the error
    printed, when discovery is rejected. *)
Theorem passthrough_exit_code
    (absent : Command -> World -> Promise unit * World)
    (name : string) (c : Command) (args : list string) (w : World) :
  ownProperty name = Some c ->
  argumentGiven c args = true ->
  match findGit "." root with
  | Resolved _ =>
      snd (main execFile term root
             (Commands.passthroughCommands execFile term root absent)
             (name :: args) w) = NumberV 0
  | Rejected e =>
      main execFile term root
        (Commands.passthroughCommands execFile term root absent)
        (name :: args) w
      = (console_error (Uncaught e) w, NumberV 1)
  end.
Proof.
  intros Hown Hgiven. unfold main, selected, getProperty.
  cbn [List.head List.tail].
  change (default "undefined" (Some name)) with name. rewrite Hown.
  change (default (Own Help) (Some (Own c))) with (Own c).
  destruct c; try discriminate Hgiven; cbn [call];
    try (destruct args as [|argument rest]; [discriminate Hgiven|]);
    cbn [Commands.passthroughCommands];
    unfold Commands.pull, Commands.push, Commands.branch, Commands.commit,
      Commands.checkout;
    rewrite ?run_reported, ?outputEachRepo_reported;
    destruct (findGit "." root) as [dirs|e] eqn:E; try done;
    rewrite ?run_reported, ?E; done.
Qed.

End PassThrough.



Lemma checkout_target_witness :
  checkoutDefault
    (scripted (fun _ => cleanRepo "git@host:org/a.git")) "a" "a"
  = git (scripted (fun _ => cleanRepo "git@host:org/a.git")) "a"
      ["checkout"; "main"]
  /\ Commands.checkout alwaysFails plainTerminal twoRepos (Some "main")
       emptyWorld
     = Commands.run alwaysFails plainTerminal twoRepos "git"
         ["checkout"; "main"] emptyWorld.
Proof.
  destruct (checkout_target (scripted (fun _ => cleanRepo "git@host:org/a.git"))
              plainTerminal twoRepos "main" emptyWorld "a")
    as (_ & _ & _ & H & _).
  destruct (checkout_target alwaysFails plainTerminal twoRepos "main"
              emptyWorld "a") as (H' & _).
  split.
  - apply (H (mkOutput ("origin/main" +:+ newline)) "origin" "main");
      reflexivity.
  - apply H'. reflexivity.
Defined.

Lemma passthrough_exit_code_witness :
  snd (main alwaysFails plainTerminal twoRepos
         (Commands.passthroughCommands alwaysFails plainTerminal twoRepos
            noAbsent) ["pull"] emptyWorld) = NumberV 0
  /\ snd (main alwaysFails plainTerminal lockedTree
            (Commands.passthroughCommands alwaysFails plainTerminal lockedTree
               noAbsent) ["run"; "ls"] emptyWorld) = NumberV 1.
Proof.
  pose proof (passthrough_exit_code alwaysFails plainTerminal twoRepos noAbsent
                "pull" Pull [] emptyWorld eq_refl eq_refl) as H.
  pose proof (passthrough_exit_code alwaysFails plainTerminal lockedTree
                noAbsent "run" Run ["ls"] emptyWorld eq_refl eq_refl) as H'.
  split; [exact H|].
  change (findGit "." lockedTree) with
    (@Rejected (list string) (mkError "EACCES" EmptyString)) in H'.
  cbv beta iota in H'. by rewrite H'.
Defined.

(** ** [help] and the dispatcher *)

Lemma help_summary (w : World) :
  outputStream
    (fold_left
       (fun w entry =>
          console_log
            (Text ("all-git " +:+ fst entry +:+ " "
                   +:+ default EmptyString (usage (snd entry)))) w)
       commands w)
  = outputStream w ++ List.map (fun entry => Text (usageLine entry)) commands.
Proof.
  cbn [commands fold_left console_log outputStream List.map].
  by rewrite <- !app_assoc.
Qed.

(** [help] and the dispatcher read the same table.  The summary has one
    line per command, in the order of the table, and each of these names
    is dispatched to its own command.  For a name that is given, [help]
    answers [Subcommand not known] exactly when the table, with what it
    inherits, has no such property: these are the names for which the
    dispatcher falls back to [help]. *)
Theorem help_agrees_with_dispatcher (n : string) (w : World) :
  outputStream (help [] w)
  = outputStream w ++ List.map (fun entry => Text (usageLine entry)) commands
  /\ outputStream (help [EmptyString] w) = outputStream (help [] w)
  /\ (forall entry, In entry commands ->
        selected (Some (fst entry)) = Own (snd entry))
  /\ (JsString.truthy n = true ->
      (outputStream (help [n] w)
       = outputStream w ++ [Text "Subcommand not known"]
       <-> getProperty (Some n) = None)
      /\ (getProperty (Some n) = None -> selected (Some n) = Own Help))
  /\ errorStream (help [n] w) = errorStream w.
Proof.
  split; [apply help_summary|]. split; [reflexivity|].
  split.
  { intros entry Hin. cbn [commands In] in Hin.
    repeat destruct Hin as [<-|Hin]; try reflexivity. done. }
  split.
  - intros Htruthy. split; [|by unfold selected; intros ->].
    unfold help. cbn [List.head]. rewrite Htruthy.
    destruct (getProperty (Some n)) as [[c|property]|] eqn:E.
    + cbn [console_log outputStream]. split; [|done].
      rewrite <- app_assoc. intros H%app_inv_head. discriminate.
    + cbn [console_log outputStream]. split; [|done].
      rewrite <- app_assoc. intros H%app_inv_head. discriminate.
    + done.
  - unfold help. cbn [List.head].
    destruct (JsString.truthy n).
    + by destruct (getProperty (Some n)) as [[c|property]|].
    + generalize commands. intros l. revert w.
      induction l as [|entry l IH]; intros w; [done|].
      cbn [fold_left]. by rewrite IH.
Qed.

Lemma help_agrees_with_dispatcher_witness :
  outputStream (help ["frobnicate"] emptyWorld) = [Text "Subcommand not known"]
  /\ selected (Some "frobnicate") = Own Help.
Proof.
  destruct (help_agrees_with_dispatcher "frobnicate" emptyWorld)
    as (_ & _ & _ & H & _).
  destruct (H eq_refl) as [[_ Hhelp] Hsel].
  split; [apply Hhelp | apply Hsel]; reflexivity.
Defined.

(** ** The table of [status] *)

Section Table.

Context (execFile : string -> list string -> string -> Promise Output).
Context (term : Terminal).
Context (root : Dirent).

Lemma slotOf_resolved (path : string) (out : Output) :
  execFile "git" ["status"; "-z"; "--porcelain=v1"] path = Resolved out ->
  exists row,
    slotOf execFile term path = Some row /\ rowName (fst row) = path.
Proof.
  intros Hout. unfold slotOf, statusAction.
  destruct (collect_resolves execFile path path emptyWorld out Hout)
    as (s & w' & Hc).
  rewrite Hc. cbn [fst Promise.map]. eexists. split; [done|].
  apply collect_resolved in Hc. destruct Hc as (_ & _ & Hname & _).
  exact Hname.
Qed.

Lemma flatMapRows_Some (p : string) (rows : list (Row * string)) :
  flatMapRows term (Some p) (List.map Some rows)
  = Resolved (shownRows term p rows).
Proof.
  induction rows as [|[r text] rows IH]; [done|].
  cbn [List.map]. rewrite flatMapRows_cons, IH. done.
Qed.

Lemma shownRows_length (p : string) (rows : list (Row * string)) :
  length (shownRows term p rows) = 2 * length rows.
Proof.
  induction rows as [|row rows IH]; [done|].
  unfold shownRows in *. cbn [List.flat_map app length]. rewrite IH. lia.
Qed.

(** What a run of [status] that returns has done. *)
Lemma status_resolved_inv (w w1 : World) (v : JsRet) :
  status execFile term root w = (Resolved v, w1) ->
  exists dirs rows shown,
    findGit "." root = Resolved dirs
    /\ List.map (slotOf execFile term) dirs = List.map Some rows
    /\ commonRepositoryPrefix w1
       = reducePrefix (List.map (fun row => rowRepo (fst row)) rows)
    /\ v = NumberV 0
    /\ errorStream w1 = errorStream w
    /\ outputStream w1
       = outputStream w
         ++ [Table header shown; Legend (commonRepositoryPrefix w1)]
    /\ match commonRepositoryPrefix w1 with
       | Some p => shown = shownRows term p rows
       | None => rows = [] /\ shown = []
       end.
Proof.
  unfold status, forEachRepo.
  destruct (findGit "." root) as [dirs|e]; [|done].
  destruct (eachRepo (statusAction execFile term) dirs (setPrefix None w))
    as [slots w2] eqn:E.
  apply eachRepo_statusAction in E. destruct E as (Hslots & Hp & He & Ho).
  destruct (flatMapRows term (commonRepositoryPrefix w2) slots)
    as [shown|e] eqn:Eshown; [|done].
  intros [= <- <-].
  apply flatMapRows_resolved in Eshown. destruct Eshown as (rows & -> & Hshown).
  exists dirs, rows, shown. rewrite urlsOf_Some in Hp.
  cbn [setPrefix commonRepositoryPrefix errorStream outputStream] in Hp, He, Ho.
  cbn [console_log commonRepositoryPrefix errorStream outputStream].
  split; [done|]. split; [done|]. split; [exact Hp|]. split; [done|].
  split; [|split; [by rewrite Ho, <- app_assoc | exact Hshown]].
  rewrite He.
  assert (Hnone : omap (errorOf execFile term) dirs = []).
  { clear -Hslots. revert rows Hslots.
    induction dirs as [|path dirs IH]; intros rows Hslots; [done|].
    destruct rows as [|row rows]; [done|]. cbn [List.map] in Hslots.
    injection Hslots as Hrow Hrest. rewrite omap_cons.
    destruct (slot_cases execFile term path)
      as [(row' & _ & _ & ->)|(e & _ & Hnone & _)]; [by eapply IH|].
    congruence. }
  by rewrite Hnone, app_nil_r.
Qed.

(** When discovery and every status listing succeed, [status] returns
    [0], writes nothing to the error stream and prints one table and one
    legend.  The table has two rows per repository, in discovery order:
    the row of the repository, whose first cell is its path, and the
    explanation of its action. *)
Theorem status_prints_two_rows_per_repository (w : World)
    (dirs : list string) :
  findGit "." root = Resolved dirs ->
  (forall path, In path dirs ->
     exists out,
       execFile "git" ["status"; "-z"; "--porcelain=v1"] path = Resolved out) ->
  exists w1 rows shown,
    status execFile term root w = (Resolved (NumberV 0), w1)
    /\ errorStream w1 = errorStream w
    /\ outputStream w1
       = outputStream w
         ++ [Table header shown; Legend (commonRepositoryPrefix w1)]
    /\ List.map (fun row => rowName (fst row)) rows = dirs
    /\ length shown = 2 * length dirs
    /\ (forall p, commonRepositoryPrefix w1 = Some p ->
                  shown = shownRows term p rows)
    /\ (commonRepositoryPrefix w1 = None <-> dirs = []).
Proof.
  intros Hdirs Hall.
  assert (Hrows : exists rows,
            List.map (slotOf execFile term) dirs = List.map Some rows
            /\ List.map (fun row => rowName (fst row)) rows = dirs).
  { clear Hdirs. induction dirs as [|path dirs IH]; [by exists []|].
    destruct (Hall path (or_introl eq_refl)) as [out Hout].
    destruct (slotOf_resolved path out Hout) as (row & Hrow & Hname).
    destruct IH as (rows & Hrows & Hnames);
      [intros p Hp; apply Hall; by right|].
    exists (row :: rows). cbn [List.map]. by rewrite Hrow, Hrows, Hname, Hnames. }
  destruct Hrows as (rows & Hrows & Hnames).
  assert (Hlen : length rows = length dirs)
    by (by rewrite <- Hnames, length_map).
  unfold status, forEachRepo. rewrite Hdirs.
  destruct (eachRepo (statusAction execFile term) dirs (setPrefix None w))
    as [slots w2] eqn:E.
  apply eachRepo_statusAction in E. destruct E as (Hslots & Hp & He & Ho).
  rewrite Hrows in Hslots. subst slots. rewrite urlsOf_Some in Hp.
  cbn [setPrefix commonRepositoryPrefix errorStream outputStream] in Hp, He, Ho.
  fold (reducePrefix (List.map (fun row => rowRepo (fst row)) rows)) in Hp.
  assert (Hnone : omap (errorOf execFile term) dirs = []).
  { clear -Hrows. revert rows Hrows.
    induction dirs as [|path dirs IH]; intros rows Hrows; [done|].
    destruct rows as [|row rows]; [done|]. cbn [List.map] in Hrows.
    injection Hrows as Hrow Hrest. rewrite omap_cons.
    destruct (slot_cases execFile term path)
      as [(row' & _ & _ & ->)|(e & _ & Hnone & _)]; [by eapply IH|].
    congruence. }
  rewrite Hnone, app_nil_r in He.
  destruct (commonRepositoryPrefix w2) as [p|] eqn:Eprefix.
  - rewrite flatMapRows_Some.
    exists (console_log (Legend (Some p))
              (console_log (Table header (shownRows term p rows)) w2)),
      rows, (shownRows term p rows).
    cbn [console_log commonRepositoryPrefix errorStream outputStream].
    rewrite Eprefix.
    split; [done|]. split; [done|].
    split; [by rewrite Ho, <- app_assoc|]. split; [done|].
    split; [by rewrite shownRows_length, Hlen|].
    split; [by intros q [= <-]|].
    split; [done|]. intros ->. destruct rows; [|done].
    by cbn in Hp.
  - symmetry in Hp. apply reducePrefix_None in Hp.
    destruct rows as [|row rows]; [|done]. destruct dirs; [|done].
    exists (console_log (Legend None) (console_log (Table header []) w2)),
      [], [].
    cbn [List.map flatMapRows Promise.all Promise.map concat].
    cbn [console_log commonRepositoryPrefix errorStream outputStream].
    rewrite Eprefix. by rewrite Ho, <- app_assoc.
Qed.

(** The prefix of the legend is the longest string that leads every
    remote URL of the table: it leads each of them, and every string that
    leads them all leads it. *)
Theorem status_prefix_is_longest (w w1 : World) (v : JsRet) (q : string) :
  status execFile term root w = (Resolved v, w1) ->
  exists rows,
    (exists dirs, findGit "." root = Resolved dirs
                  /\ List.map (slotOf execFile term) dirs = List.map Some rows)
    /\ match commonRepositoryPrefix w1 with
       | Some p =>
           (forall row, In row rows -> isPrefix p (rowRepo (fst row)))
           /\ ((forall row, In row rows -> isPrefix q (rowRepo (fst row))) ->
               isPrefix q p)
       | None => rows = []
       end.
Proof.
  intros H. apply status_resolved_inv in H.
  destruct H as (dirs & rows & shown & Hdirs & Hrows & Hp & _ & _ & _ & Hshown).
  exists rows. split; [by exists dirs|].
  destruct (commonRepositoryPrefix w1) as [p|]; [|by destruct Hshown].
  symmetry in Hp. unfold reducePrefix in Hp. split.
  - intros row Hrow. apply (fold_updatePrefix_lower _ _ _ Hp).
    apply in_map_iff. by exists row.
  - intros Hq. apply (fold_updatePrefix_greatest _ _ _ _ Hp); [done|].
    intros url (row & <- & Hrow)%in_map_iff. by apply Hq.
Qed.

End Table.

Lemma status_prints_two_rows_per_repository_witness :
  exists w1 shown,
    status (scripted sameOrganisation) plainTerminal twoRepos emptyWorld
    = (Resolved (NumberV 0), w1)
    /\ errorStream w1 = []
    /\ outputStream w1 = [Table header shown; Legend (commonRepositoryPrefix w1)]
    /\ length shown = 4.
Proof.
  destruct (status_prints_two_rows_per_repository (scripted sameOrganisation)
              plainTerminal twoRepos emptyWorld ["a"; "b"] eq_refl)
    as (w1 & rows & shown & Hstatus & Herr & Hout & _ & Hlen & _).
  { intros path [<-|[<-|[]]]; eexists; reflexivity. }
  exists w1, shown. repeat split; assumption.
Defined.

Lemma status_prefix_is_longest_witness :
  let w1 :=
    snd (status (scripted sameOrganisation) plainTerminal twoRepos emptyWorld)
  in
  commonRepositoryPrefix w1 = Some "git@host:org/"
  /\ isPrefix "git@host:" "git@host:org/".
Proof.
  pose (r := status (scripted sameOrganisation) plainTerminal twoRepos
               emptyWorld).
  assert (E : status (scripted sameOrganisation) plainTerminal twoRepos
                emptyWorld = r) by reflexivity.
  vm_compute in r. subst r.
  destruct (status_prefix_is_longest _ _ _ _ _ _ "git@host:" E)
    as (rows & (dirs & Hdirs & Hrows) & H).
  cbn [commonRepositoryPrefix] in H. destruct H as [_ Hlongest].
  cbv zeta. rewrite E. cbn [snd commonRepositoryPrefix].
  split; [reflexivity|]. apply Hlongest.
  vm_compute in Hdirs. injection Hdirs as <-. vm_compute in Hrows.
  destruct rows as [|ra [|rb [|rc rows]]]; try discriminate.
  injection Hrows as <- <-.
  intros row [<-|[<-|[]]]; [by exists "org/a.git" | by exists "org/b.git"].
Defined.
